(** * The ERC20 transfer policy codec

    A shallow embedding of
    [examples/lit-protocol/litTools/agentWalletTransfer/policy.ts]:
    the zod schema [policySchema], [encodePolicy] and [decodePolicy].

    The three functions are thin compositions of library calls, so the
    development is layered like the imports of the file:
    - [JS]      the ECMAScript built-ins the file calls ([parseInt],
                [BigInt] parsing and printing, string case);
    - [Keccak]  Keccak-256, which ethers uses for address checksums;
    - [Ethers]  ethers v6: [parseUnits], [getAddress], and the
                [AbiCoder] writer/reader for the one tuple type used;
    - [Zod]     issues and the combinators of the schema;
    - and, at the top level, the definitions of the source file itself.

    Exceptions are values: every function that can throw returns a
    [Result]. *)

From Stdlib Require Import ZArith List String Ascii Bool Lia.
Import ListNotations.

#[local] Open Scope string_scope.
#[local] Open Scope Z_scope.
#[local] Open Scope list_scope.

(** ** Thrown values *)

(** One segment of a zod issue path: an object key or an array index. *)
Inductive PathSeg : Type :=
| Key (k : string)
| Index (i : nat).

Record ZodIssue : Type := mkIssue {
  path : list PathSeg;
  message : string
}.

(** What a call can throw: a [ZodError] with its issues, or an ethers
    error with its code ([INVALID_ARGUMENT], [NUMERIC_FAULT],
    [BUFFER_OVERRUN]) and message. *)
Inductive Error : Type :=
| ZodError (issues : list ZodIssue)
| EthersError (code : string) (msg : string).

Inductive Result (A : Type) : Type :=
| Ok (a : A)
| Throw (e : Error).

Arguments Ok {A} a.
Arguments Throw {A} e.

Definition bind {A B : Type} (m : Result A) (k : A -> Result B) : Result B :=
  match m with
  | Ok a => k a
  | Throw e => Throw e
  end.

Notation "'let*' x ':=' m 'in' k" := (bind m (fun x => k))
  (at level 10, x pattern, m at level 100, k at level 200).

Definition assert (b : bool) (code msg : string) : Result unit :=
  if b then Ok tt else Throw (EthersError code msg).

Fixpoint mapM {A B : Type} (f : A -> Result B) (l : list A) : Result (list B) :=
  match l with
  | [] => Ok []
  | a :: r => let* b := f a in let* bs := mapM f r in Ok (b :: bs)
  end.

(** ** ECMAScript built-ins *)

Module JS.

(** Strings are sequences of code units.  The model keeps the code units
    0..255 ([ascii]); every string the codec looks into (numerals, hex
    addresses, the hex wire form) lives there. *)
Definition chars : string -> list ascii := list_ascii_of_string.
Definition ofChars : list ascii -> string := string_of_list_ascii.
Definition codeUnit (c : ascii) : Z := Z.of_N (N_of_ascii c).

(** WhiteSpace and LineTerminator code units below 256:
    TAB, LF, VT, FF, CR, SP and NBSP. *)
Definition isWhiteSpace (c : ascii) : bool :=
  let n := codeUnit c in
  ((9 <=? n) && (n <=? 13)) || (n =? 32) || (n =? 160).

Fixpoint trimStart (s : list ascii) : list ascii :=
  match s with
  | c :: r => if isWhiteSpace c then trimStart r else s
  | [] => []
  end.

Definition trimEnd (s : list ascii) : list ascii := rev (trimStart (rev s)).
Definition trim (s : list ascii) : list ascii := trimEnd (trimStart s).

(** The value of a digit or letter as a digit: 0-9, a-z and A-Z. *)
Definition digitValue (c : ascii) : option Z :=
  let n := codeUnit c in
  if (48 <=? n) && (n <=? 57) then Some (n - 48)
  else if (97 <=? n) && (n <=? 122) then Some (n - 87)
  else if (65 <=? n) && (n <=? 90) then Some (n - 55)
  else None.

Definition radixDigit (R : Z) (c : ascii) : option Z :=
  match digitValue c with
  | Some d => if d <? R then Some d else None
  | None => None
  end.

Definition isRadixDigit (R : Z) (c : ascii) : bool :=
  match radixDigit R c with Some _ => true | None => false end.

(** The digits of the longest prefix of [s] made of radix-[R] digits. *)
Fixpoint digitPrefix (R : Z) (s : list ascii) : list Z :=
  match s with
  | c :: r =>
      match radixDigit R c with
      | Some d => d :: digitPrefix R r
      | None => []
      end
  | [] => []
  end.

(** The digits of [s] when every code unit of it is a radix-[R] digit. *)
Fixpoint allDigits (R : Z) (s : list ascii) : option (list Z) :=
  match s with
  | c :: r =>
      match radixDigit R c, allDigits R r with
      | Some d, Some ds => Some (d :: ds)
      | _, _ => None
      end
  | [] => Some []
  end.

(** The integer a digit sequence denotes, most significant digit first. *)
Definition radixValue (R : Z) (ds : list Z) : Z :=
  fold_left (fun a d => a * R + d) ds 0.

(** A Number as [parseInt] returns it: [NaN] or (the Number nearest to)
    an integer.  The source only compares the result with 0 and 255 and
    hands it to ethers, which refuses anything above 80; on integers
    these tests agree with the tests on the nearest Number (rounding is
    monotone and fixes 0, 80 and 255), and -0 passes them as 0 does.  So
    the model keeps the exact integer and writes -0 as 0. *)
Inductive Number : Type :=
| NaN
| Int (n : Z).

Definition isNaN (x : Number) : bool :=
  match x with NaN => true | Int _ => false end.

(** [x >= k] and [x <= k]: false when [x] is NaN. *)
Definition geq (x : Number) (k : Z) : bool :=
  match x with NaN => false | Int n => k <=? n end.
Definition leq (x : Number) (k : Z) : bool :=
  match x with NaN => false | Int n => n <=? k end.

(** Whether [s] starts with the code unit [k]. *)
Definition headIs (k : ascii) (s : list ascii) : bool :=
  match s with
  | c :: _ => Ascii.eqb c k
  | [] => false
  end.

(** Whether [s] starts with 0 and one of the two letters of a radix
    prefix (0x or 0X, 0o or 0O, 0b or 0B). *)
Definition hasRadixPrefix (lower upper : ascii) (s : list ascii) : bool :=
  match s with
  | c0 :: c1 :: _ =>
      Ascii.eqb c0 "0" && (Ascii.eqb c1 lower || Ascii.eqb c1 upper)
  | _ => false
  end.

(** [parseInt(string, radix)] (ECMA-262, 19.2.5).  [radix = 0] stands for
    a missing radix. *)
Definition parseInt (input : string) (radix : Z) : Number :=
  let s0 := trimStart (chars input) in
  let sign := if headIs "-" s0 then -1 else 1 in
  let s1 := if headIs "+" s0 || headIs "-" s0 then tl s0 else s0 in
  if negb (radix =? 0) && ((radix <? 2) || (36 <? radix)) then NaN
  else
    let stripPrefix := (radix =? 0) || (radix =? 16) in
    let R := if radix =? 0 then 10 else radix in
    let hex := stripPrefix && hasRadixPrefix "x" "X" s1 in
    let R := if hex then 16 else R in
    let s2 := if hex then skipn 2 s1 else s1 in
    match digitPrefix R s2 with
    | [] => NaN
    | ds => Int (sign * radixValue R ds)
    end.

(** A non-empty run of radix-[R] digits that spans the whole of [s]. *)
Definition wholeNumeral (R : Z) (s : list ascii) : option Z :=
  match s with
  | [] => None
  | _ => option_map (radixValue R) (allDigits R s)
  end.

(** [StringToBigInt] (ECMA-262, 7.1.14): the argument trimmed; empty is
    0; otherwise an unsigned numeral with a 0x, 0o or 0b prefix, or a
    decimal numeral with an optional sign.  [None] is the SyntaxError
    that [BigInt(string)] throws. *)
Definition StringToBigInt (input : string) : option Z :=
  let s := trim (chars input) in
  match s with
  | [] => Some 0
  | _ =>
      if hasRadixPrefix "x" "X" s then wholeNumeral 16 (skipn 2 s)
      else if hasRadixPrefix "o" "O" s then wholeNumeral 8 (skipn 2 s)
      else if hasRadixPrefix "b" "B" s then wholeNumeral 2 (skipn 2 s)
      else if headIs "+" s then wholeNumeral 10 (tl s)
      else if headIs "-" s then option_map Z.opp (wholeNumeral 10 (tl s))
      else wholeNumeral 10 s
  end.

Definition digitChar (d : Z) : ascii := ascii_of_N (Z.to_N (48 + d)).

(** The decimal digits of [n >= 0], least significant first; [fuel]
    bounds the number of divisions. *)
Fixpoint decimalDigits (fuel : nat) (n : Z) : list Z :=
  match fuel with
  | O => [n mod 10]
  | S f => if n <? 10 then [n] else (n mod 10) :: decimalDigits f (n / 10)
  end.

(** [BigInt.prototype.toString()], radix 10. *)
Definition BigInt_toString (v : Z) : string :=
  let n := Z.abs v in
  let ds := rev (decimalDigits (Z.to_nat (Z.log2 n)) n) in
  ofChars ((if v <? 0 then ["-"%char] else []) ++ map digitChar ds).

(** [toLowerCase] and [toUpperCase] on the letters A-Z; the codec applies
    them to strings of hexadecimal digits only. *)
Definition toLower (c : ascii) : ascii :=
  let n := codeUnit c in
  if (65 <=? n) && (n <=? 90) then ascii_of_N (Z.to_N (n + 32)) else c.
Definition toUpper (c : ascii) : ascii :=
  let n := codeUnit c in
  if (97 <=? n) && (n <=? 122) then ascii_of_N (Z.to_N (n - 32)) else c.

End JS.

(** ** Keccak-256 *)

(** The hash behind ethers' [keccak256], which [getAddress] uses for the
    EIP-55 checksum.  Bytes are integers 0..255, lanes are 64-bit
    integers; the state is the list of the 25 lanes. *)
Module Keccak.

Definition mask64 (x : Z) : Z := Z.land x (Z.ones 64).

Definition rotl64 (x n : Z) : Z :=
  Z.lor (mask64 (Z.shiftl x n)) (Z.shiftr x (64 - n)).

Definition lane (st : list Z) (i : nat) : Z := nth i st 0.

Definition roundConstants : list Z :=
  [ 0x0000000000000001; 0x0000000000008082; 0x800000000000808a;
    0x8000000080008000; 0x000000000000808b; 0x0000000080000001;
    0x8000000080008081; 0x8000000000008009; 0x000000000000008a;
    0x0000000000000088; 0x0000000080008009; 0x000000008000000a;
    0x000000008000808b; 0x800000000000008b; 0x8000000000008089;
    0x8000000000008003; 0x8000000000008002; 0x8000000000000080;
    0x000000000000800a; 0x800000008000000a; 0x8000000080008081;
    0x8000000000008080; 0x0000000080000001; 0x8000000080008008 ].

(** The rho/pi walk: lane [src] rotated by [rot] lands in lane [dst]. *)
Definition piLanes : list nat :=
  [10; 7; 11; 17; 18; 3; 5; 16; 8; 21; 24; 4;
   15; 23; 19; 13; 12; 2; 20; 14; 22; 9; 6; 1]%nat.
Definition rhoOffsets : list Z :=
  [1; 3; 6; 10; 15; 21; 28; 36; 45; 55; 2; 14;
   27; 41; 56; 8; 25; 43; 62; 18; 39; 61; 20; 44].
Definition rhoPiMoves : list (nat * (nat * Z)) :=
  combine piLanes (combine (1%nat :: piLanes) rhoOffsets).

Definition theta (st : list Z) : list Z :=
  let column i :=
    Z.lxor (lane st i)
      (Z.lxor (lane st (i + 5))
         (Z.lxor (lane st (i + 10))
            (Z.lxor (lane st (i + 15)) (lane st (i + 20))))) in
  let bc := map column (seq 0 5) in
  let t i :=
    Z.lxor (nth ((i + 4) mod 5) bc 0) (rotl64 (nth ((i + 1) mod 5) bc 0) 1) in
  map (fun j => Z.lxor (lane st j) (t (j mod 5)%nat)) (seq 0 25).

Definition rhoPi (st : list Z) : list Z :=
  map (fun j =>
         match find (fun m => Nat.eqb (fst m) j) rhoPiMoves with
         | Some (_, (src, rot)) => rotl64 (lane st src) rot
         | None => lane st j
         end)
      (seq 0 25).

Definition chi (st : list Z) : list Z :=
  map (fun j =>
         let x := (j mod 5)%nat in
         let row := (j - x)%nat in
         Z.lxor (lane st j)
           (Z.ldiff (lane st (row + (x + 2) mod 5))
                    (lane st (row + (x + 1) mod 5))))
      (seq 0 25).

Definition iota (rc : Z) (st : list Z) : list Z :=
  match st with
  | a :: r => Z.lxor a rc :: r
  | [] => []
  end.

Definition keccakRound (st : list Z) (rc : Z) : list Z :=
  iota rc (chi (rhoPi (theta st))).

Definition keccakF (st : list Z) : list Z :=
  fold_left keccakRound roundConstants st.

(** Little-endian value of a run of bytes, and the bytes of a lane. *)
Definition leValue (bs : list Z) : Z :=
  fold_right (fun b a => b + 256 * a) 0 bs.

Fixpoint leBytes (n : nat) (v : Z) : list Z :=
  match n with
  | O => []
  | S k => v mod 256 :: leBytes k (v / 256)
  end.

Fixpoint lanesOfBytes (n : nat) (bs : list Z) : list Z :=
  match n with
  | O => []
  | S k => leValue (firstn 8 bs) :: lanesOfBytes k (skipn 8 bs)
  end.

(** Rate of Keccak-256 in bytes. *)
Definition rate : nat := 136.

Definition xorBlock (st : list Z) (block : list Z) : list Z :=
  let ls := lanesOfBytes 17 block in
  map (fun j => Z.lxor (lane st j) (nth j ls 0)) (seq 0 25).

(** Keccak padding (domain byte 0x01, final bit 0x80). *)
Definition pad (bs : list Z) : list Z :=
  let q := (rate - (List.length bs mod rate))%nat in
  bs ++ (if Nat.eqb q 1 then [0x81]
         else 0x01 :: repeat 0 (q - 2) ++ [0x80]).

Fixpoint absorb (fuel : nat) (st : list Z) (bs : list Z) : list Z :=
  match fuel, bs with
  | S f, _ :: _ => absorb f (keccakF (xorBlock st (firstn rate bs))) (skipn rate bs)
  | _, _ => st
  end.

Definition keccak256 (bs : list Z) : list Z :=
  let p := pad bs in
  let st := absorb (List.length p) (repeat 0 25) p in
  flat_map (leBytes 8) (firstn 4 st).

End Keccak.

(** ** ethers v6 *)

Module Ethers.

Import JS.

(** *** Bytes and hex strings *)

(** Big-endian bytes of [v] on [n] bytes ([toBeArray], zero padded) and
    the value of a run of bytes ([toBigInt]). *)
Fixpoint beBytes (n : nat) (v : Z) : list Z :=
  match n with
  | O => []
  | S k => (v / 256 ^ Z.of_nat k) mod 256 :: beBytes k v
  end.

Definition beValue (bs : list Z) : Z :=
  fold_left (fun a b => a * 256 + b) bs 0.

Definition hexDigit (d : Z) : ascii :=
  ascii_of_N (Z.to_N (if d <? 10 then 48 + d else 87 + d)).

Definition hexOfByte (b : Z) : list ascii :=
  [hexDigit (b / 16); hexDigit (b mod 16)].

(** [hexlify]: the lower-case hex string of a byte array. *)
Definition hexlify (bs : list Z) : string :=
  ofChars ("0"%char :: "x"%char :: flat_map hexOfByte bs).

Fixpoint bytesOfHex (s : list ascii) : option (list Z) :=
  match s with
  | [] => Some []
  | h :: l :: r =>
      match radixDigit 16 h, radixDigit 16 l, bytesOfHex r with
      | Some a, Some b, Some bs => Some (a * 16 + b :: bs)
      | _, _, _ => None
      end
  | _ => None
  end.

(** [getBytes] on a string: 0x (in either case), then pairs of
    hexadecimal digits. *)
Definition getBytes (value : string) : Result (list Z) :=
  let s := chars value in
  let bad := Throw (EthersError "INVALID_ARGUMENT" "invalid BytesLike value") in
  if hasRadixPrefix "x" "X" s then
    match bytesOfHex (skipn 2 s) with
    | Some bs => Ok bs
    | None => bad
    end
  else bad.

(** *** Numbers *)

(** [getBigInt] on a string: the empty string is refused; a string
    that starts with one minus sign is negated by hand. *)
Definition getBigInt (value : string) : Result Z :=
  let s := chars value in
  let bad := Throw (EthersError "INVALID_ARGUMENT" "invalid BigNumberish string") in
  let ofOption o := match o with Some v => Ok v | None => bad end in
  match s with
  | [] => bad
  | _ =>
      if headIs "-" s && negb (headIs "-" (tl s))
      then ofOption (option_map Z.opp (StringToBigInt (ofChars (tl s))))
      else ofOption (StringToBigInt value)
  end.

(** Largest safe integer of a Number, 2^53 - 1. *)
Definition maxValue : Z := 0x1fffffffffffff.

(** [getNumber] on a Number and on a bigint. *)
Definition getNumber (value : Number) : Result Z :=
  match value with
  | NaN => Throw (EthersError "INVALID_ARGUMENT" "underflow")
  | Int n =>
      let* _ := assert ((- maxValue <=? n) && (n <=? maxValue))
                       "INVALID_ARGUMENT" "overflow" in
      Ok n
  end.

Definition getNumberOfBigInt (value : Z) : Result Z :=
  let* _ := assert ((- maxValue <=? value) && (value <=? maxValue))
                   "INVALID_ARGUMENT" "overflow" in
  Ok value.

Definition isDecDigit (c : ascii) : bool := isRadixDigit 10 c.

Fixpoint spanDigits (s : list ascii) : list ascii * list ascii :=
  match s with
  | c :: r =>
      if isDecDigit c then let '(ds, rest) := spanDigits r in (c :: ds, rest)
      else ([], s)
  | [] => ([], [])
  end.

(** The groups of the pattern of [FixedNumber.fromString] on [s], when it
    matches the whole of it: an optional minus sign, a run of decimal
    digits, an optional point, a run of decimal digits. *)
Definition matchFixed (s : list ascii)
  : option (bool * list ascii * list ascii) :=
  let neg := headIs "-" s in
  let r := if neg then tl s else s in
  let '(whole, r) := spanDigits r in
  let frac := if headIs "." r then tl r else r in
  if forallb isDecDigit frac then Some (neg, whole, frac) else None.

Definition isZeroChar (c : ascii) : bool := (codeUnit c =? 48).

(** [FixedNumber.fromString(value, { decimals, width: 512 }).value].
    ethers pads the fraction with blocks of zeros up to at least
    [decimals] digits and cuts it back to [decimals]; the model pads to
    exactly that length. *)
Definition FixedNumber_fromString (value : string) (decimals : Z) : Result Z :=
  match matchFixed (chars value) with
  | None => Throw (EthersError "INVALID_ARGUMENT" "invalid FixedNumber string value")
  | Some (neg, whole, frac) =>
      let* _ := assert (0 <? Z.of_nat (List.length whole + List.length frac))
                       "INVALID_ARGUMENT" "invalid FixedNumber string value" in
      let* _ := assert (decimals <=? 80)
                       "INVALID_ARGUMENT" "invalid FixedNumber decimals (too large)" in
      let d := Z.to_nat decimals in
      let whole := match whole with [] => ["0"%char] | _ => whole end in
      let padded := frac ++ repeat "0"%char (d - List.length frac) in
      let* _ := assert (forallb isZeroChar (skipn d padded))
                       "NUMERIC_FAULT" "too many decimals for format" in
      let digits := whole ++ firstn d padded in
      let magnitude := radixValue 10 (digitPrefix 10 digits) in
      let v := if neg then - magnitude else magnitude in
      let limit := 2 ^ 511 in
      let* _ := assert ((- limit <=? v) && (v <? limit)) "NUMERIC_FAULT" "overflow" in
      Ok v
  end.

(** [parseUnits(value, unit)] with a Number for the unit. *)
Definition parseUnits (value : string) (unit : Number) : Result Z :=
  let* decimals := getNumber unit in
  FixedNumber_fromString value decimals.

(** *** Addresses *)

Definition isHexChar (c : ascii) : bool := isRadixDigit 16 c.

(** The pattern of an address: 0x and exactly 40 hexadecimal digits. *)
Definition isPrefixedAddress (s : list ascii) : bool :=
  headIs "0" s && headIs "x" (tl s)
  && (List.length (skipn 2 s) =? 40)%nat && forallb isHexChar (skipn 2 s).

Definition isUpperAF (c : ascii) : bool :=
  let n := codeUnit c in (65 <=? n) && (n <=? 70).
Definition isLowerAF (c : ascii) : bool :=
  let n := codeUnit c in (97 <=? n) && (n <=? 102).

(** [/([A-F].*[a-f])|([a-f].*[A-F])/] on a string without line breaks. *)
Definition isMixedCase (s : list ascii) : bool :=
  existsb isUpperAF s && existsb isLowerAF s.

(** The [i]-th nibble of the hash, high nibble first. *)
Definition nibbleAt (hashed : list Z) (i : nat) : Z :=
  let b := nth (i / 2) hashed 0 in
  if Nat.even i then Z.shiftr b 4 else Z.land b 15.

Fixpoint checksumCase (hashed : list Z) (i : nat) (cs : list ascii) : list ascii :=
  match cs with
  | [] => []
  | c :: r =>
      (if 8 <=? nibbleAt hashed i then toUpper c else c)
        :: checksumCase hashed (S i) r
  end.

(** [getChecksumAddress] on a 0x-prefixed address (EIP-55). *)
Definition getChecksumAddress (address : list ascii) : list ascii :=
  let cs := skipn 2 (map toLower address) in
  let hashed := Keccak.keccak256 (map codeUnit cs) in
  "0"%char :: "x"%char :: checksumCase hashed 0 cs.

Definition listEqb (a b : list ascii) : bool :=
  String.eqb (ofChars a) (ofChars b).

(** [getAddress].  The ICAP branch (addresses that start with XE) is left
    out: such a string throws here.  The codec calls [getAddress] on
    strings that passed the schema and on the output of [toBeHex], and
    both start with 0x. *)
Definition getAddress (address : string) : Result string :=
  let a := chars address in
  let a := if isPrefixedAddress a then a else "0"%char :: "x"%char :: a in
  if isPrefixedAddress a then
    let result := getChecksumAddress a in
    let* _ := assert (negb (isMixedCase a) || listEqb result a)
                     "INVALID_ARGUMENT" "bad address checksum" in
    Ok (ofChars result)
  else Throw (EthersError "INVALID_ARGUMENT" "invalid address").

(** [toBeHex(value, 20)] *)
Definition toBeHex20 (value : Z) : Result string :=
  let* _ := assert (value <? 2 ^ 160) "NUMERIC_FAULT" "value exceeds width" in
  Ok (hexlify (beBytes 20 value)).

(** *** Writer and the coders' [encode] *)

Definition WordSize : Z := 32.

(** [Writer.writeValue]: one 32-byte big-endian word. *)
Definition writeValue (value : Z) : Result (list Z) :=
  let* _ := assert (0 <=? value) "NUMERIC_FAULT" "unsigned value cannot be negative" in
  let* _ := assert (value <? 2 ^ 256) "BUFFER_OVERRUN" "value out-of-bounds" in
  Ok (beBytes 32 value).

(** [NumberCoder.encode] of an unsigned type of [size] bytes. *)
Definition NumberCoder_encode (size : Z) (value : string) : Result (list Z) :=
  let* v := getBigInt value in
  let* _ := assert ((0 <=? v) && (v <=? Z.ones (size * 8)))
                   "INVALID_ARGUMENT" "value out-of-bounds" in
  writeValue v.

Definition AddressCoder_encode (value : string) : Result (list Z) :=
  let* a := getAddress value in
  let* v := getBigInt a in
  writeValue v.

(** [ArrayCoder.encode] for [address[]]: the length, then the elements
    packed (they are static: one word each). *)
Definition ArrayCoder_encode (value : list string) : Result (list Z) :=
  let* count := writeValue (Z.of_nat (List.length value)) in
  let* items := mapM AddressCoder_encode value in
  Ok (count ++ List.concat items).

(** The object handed to the tuple coder. *)
Record TupleValue : Type := mkTupleValue {
  tv_erc20Decimals : string;
  tv_maxAmount : string;
  tv_allowedTokens : list string;
  tv_allowedRecipients : list string
}.

(** [pack] for the coders of
    [tuple(uint8, uint256, address[], address[])]: the static writer gets
    two value words and two offset words, the dynamic writer the two
    arrays; the offsets count from the start of the static part. *)
Definition TupleCoder_encode (value : TupleValue) : Result (list Z) :=
  let* w1 := NumberCoder_encode 1 (tv_erc20Decimals value) in
  let* w2 := NumberCoder_encode 32 (tv_maxAmount value) in
  let* d1 := ArrayCoder_encode (tv_allowedTokens value) in
  let* d2 := ArrayCoder_encode (tv_allowedRecipients value) in
  let staticLength := 4 * WordSize in
  let* o1 := writeValue (staticLength + 0) in
  let* o2 := writeValue (staticLength + Z.of_nat (List.length d1)) in
  Ok (w1 ++ w2 ++ o1 ++ o2 ++ d1 ++ d2).

(** [AbiCoder.encode([tuple(...)], [value])]: the tuple is dynamic, so
    the outer pack writes one offset word and then the tuple. *)
Definition AbiCoder_encode (value : TupleValue) : Result string :=
  let* t := TupleCoder_encode value in
  let* o := writeValue (WordSize + 0) in
  Ok (hexlify (o ++ t)).

(** *** Reader and the coders' [decode] *)

Record Reader : Type := mkReader {
  data : list Z;
  offset : nat
}.

Definition dataLength (r : Reader) : Z := Z.of_nat (List.length (data r)).

Definition subReader (r : Reader) (off : Z) : Reader :=
  mkReader (skipn (offset r + Z.to_nat off) (data r)) 0.

(** [readBytes(32)]: the next word, when the data holds it. *)
Definition readWord (r : Reader) : Result (list Z * Reader) :=
  let* _ := assert (Z.of_nat (offset r) + WordSize <=? dataLength r)
                   "BUFFER_OVERRUN" "data out-of-bounds" in
  Ok (firstn 32 (skipn (offset r) (data r)), mkReader (data r) (offset r + 32)).

Definition readValue (r : Reader) : Result (Z * Reader) :=
  let* (bs, r) := readWord r in
  Ok (beValue bs, r).

Definition readIndex (r : Reader) : Result (Z * Reader) :=
  let* (v, r) := readValue r in
  let* n := getNumberOfBigInt v in
  Ok (n, r).

(** [NumberCoder.decode] of an unsigned type of [size] bytes: the word
    masked to the width. *)
Definition NumberCoder_decode (size : Z) (r : Reader) : Result (Z * Reader) :=
  let* (v, r) := readValue r in
  Ok (Z.land v (Z.ones (size * 8)), r).

Definition AddressCoder_decode (r : Reader) : Result (string * Reader) :=
  let* (v, r) := readValue r in
  let* h := toBeHex20 v in
  let* a := getAddress h in
  Ok (a, r).

Fixpoint unpackAddresses (count : nat) (r : Reader) : Result (list string) :=
  match count with
  | O => Ok []
  | S k =>
      let* (a, r) := AddressCoder_decode r in
      let* rest := unpackAddresses k r in
      Ok (a :: rest)
  end.

(** [ArrayCoder.decode] for [address[]]. *)
Definition ArrayCoder_decode (r : Reader) : Result (list string) :=
  let* (count, r) := readIndex r in
  let* _ := assert (count * WordSize <=? dataLength r)
                   "BUFFER_OVERRUN" "insufficient data length" in
  unpackAddresses (Z.to_nat count) r.

Record Decoded : Type := mkDecoded {
  d_erc20Decimals : Z;
  d_maxAmount : Z;
  d_allowedTokens : list string;
  d_allowedRecipients : list string
}.

(** [unpack] for the coders of the tuple: the arrays are read through a
    reader anchored at the start of the tuple. *)
Definition TupleCoder_decode (r : Reader) : Result Decoded :=
  let baseReader := subReader r 0 in
  let* (decimals, r) := NumberCoder_decode 1 r in
  let* (amount, r) := NumberCoder_decode 32 r in
  let* (o1, r) := readIndex r in
  let* tokens := ArrayCoder_decode (subReader baseReader o1) in
  let* (o2, r) := readIndex r in
  let* recipients := ArrayCoder_decode (subReader baseReader o2) in
  Ok (mkDecoded decimals amount tokens recipients).

(** [AbiCoder.decode([tuple(...)], data)[0]].  ethers keeps an error
    other than BUFFER_OVERRUN inside the result and throws it when the
    field is read; [decodePolicy] reads every field, so the call throws
    either way and the model throws at once.  The reader's inflation
    guard is left out: this tuple reads at most 224 bytes plus twice the
    data, far below the guard's 1024 times the data. *)
Definition AbiCoder_decode (encoded : string) : Result Decoded :=
  let* bytes := getBytes encoded in
  let r := mkReader bytes 0 in
  let baseReader := subReader r 0 in
  let* (o, r) := readIndex r in
  TupleCoder_decode (subReader baseReader o).

End Ethers.

(** ** zod *)

Module Zod.

(** A schema over values of type [A]: the issues it raises on a value
    found at a path.  Issues come in the order zod adds them: the keys
    of an object in the order of its shape, the items of an array by
    index.  (A value of the wrong JavaScript type has no counterpart
    here: the fields are typed.) *)
Definition Schema (A : Type) : Type := list PathSeg -> A -> list ZodIssue.

(** [z.string()] *)
Definition string_ : Schema string := fun _ _ => [].

(** [z.literal(expected)]; zod's message puts the expected value in
    quotes, left out here. *)
Definition literal (expected : string) : Schema string :=
  fun p v =>
    if String.eqb v expected then []
    else [mkIssue p ("Invalid literal value, expected " ++ expected)%string].

(** [schema.refine(check, { message })] *)
Definition refine {A : Type} (schema : Schema A) (check : A -> bool)
    (msg : string) : Schema A :=
  fun p v => schema p v ++ (if check v then [] else [mkIssue p msg]).

(** [z.string().regex(re, message)], the pattern given as its matcher. *)
Definition regex (matches : string -> bool) (msg : string) : Schema string :=
  fun p v => if matches v then [] else [mkIssue p msg].

Fixpoint arrayFrom {A : Type} (item : Schema A) (p : list PathSeg) (i : nat)
    (vs : list A) : list ZodIssue :=
  match vs with
  | [] => []
  | v :: r => item (p ++ [Index i]) v ++ arrayFrom item p (S i) r
  end.

(** [z.array(item)] *)
Definition array {A : Type} (item : Schema A) : Schema (list A) :=
  fun p vs => arrayFrom item p 0 vs.

(** [schema.parse(value)]: the value, or a ZodError with every issue. *)
Definition parse {A : Type} (schema : Schema A) (value : A) : Result A :=
  match schema [] value with
  | [] => Ok value
  | issues => Throw (ZodError issues)
  end.

End Zod.

(** ** policy.ts *)

(** Modelled from the spec: [BaseEthereumAddressSchema] of the package
    [@lit-protocol/aw-tool], whose source is absent: a string schema for a
    "syntactically valid account address" of 20 bytes, with its prefix
    and its length checked: 0x and 40 hexadecimal digits. *)
Definition BaseEthereumAddressSchema : Zod.Schema string :=
  Zod.regex (fun v => Ethers.isPrefixedAddress (JS.chars v))
            "Must be a valid Ethereum address".

(** [ERC20TransferPolicyType], the type the schema infers. *)
Record ERC20TransferPolicyType : Type := mkPolicy {
  type : string;
  version : string;
  erc20Decimals : string;
  maxAmount : string;
  allowedTokens : list string;
  allowedRecipients : list string
}.

(** The refinement of [erc20Decimals]. *)
Definition decimalsRefinement (val : string) : bool :=
  let num := JS.parseInt val 10 in
  negb (JS.isNaN num) && JS.geq num 0 && JS.leq num 255.

(** The refinement of [maxAmount]. *)
Definition amountRefinement (val : string) : bool :=
  let num := JS.parseInt val 10 in
  negb (JS.isNaN num) && JS.geq num 0.

(** The fields of the shape, in its order. *)
Definition typeSchema : Zod.Schema string := Zod.literal "ERC20Transfer".
Definition versionSchema : Zod.Schema string := Zod.string_.
Definition erc20DecimalsSchema : Zod.Schema string :=
  Zod.refine Zod.string_ decimalsRefinement
    "Invalid decimals format. Must be a non-negative integer not exceeding 255.".
Definition maxAmountSchema : Zod.Schema string :=
  Zod.refine Zod.string_ amountRefinement
    "Invalid amount format. Must be a positive integer.".
Definition allowedTokensSchema : Zod.Schema (list string) :=
  Zod.array BaseEthereumAddressSchema.
Definition allowedRecipientsSchema : Zod.Schema (list string) :=
  Zod.array BaseEthereumAddressSchema.

(** [policySchema]: the [z.object] of the six fields. *)
Definition policySchema : Zod.Schema ERC20TransferPolicyType :=
  fun p v =>
    typeSchema (p ++ [Key "type"]) (type v)
    ++ versionSchema (p ++ [Key "version"]) (version v)
    ++ erc20DecimalsSchema (p ++ [Key "erc20Decimals"]) (erc20Decimals v)
    ++ maxAmountSchema (p ++ [Key "maxAmount"]) (maxAmount v)
    ++ allowedTokensSchema (p ++ [Key "allowedTokens"]) (allowedTokens v)
    ++ allowedRecipientsSchema (p ++ [Key "allowedRecipients"]) (allowedRecipients v).

(** [validate] of the specification is [policySchema.parse]. *)
Definition validate (policy : ERC20TransferPolicyType)
  : Result ERC20TransferPolicyType :=
  Zod.parse policySchema policy.

(** [encodePolicy] *)
Definition encodePolicy (policy : ERC20TransferPolicyType) : Result string :=
  let* _ := Zod.parse policySchema policy in
  let* scaled :=
    Ethers.parseUnits (maxAmount policy)
                      (JS.parseInt (erc20Decimals policy) 0) in
  Ethers.AbiCoder_encode
    (Ethers.mkTupleValue
       (erc20Decimals policy)
       (JS.BigInt_toString scaled)
       (allowedTokens policy)
       (allowedRecipients policy)).

(** [decodePolicy] *)
Definition decodePolicy (encodedPolicy : string)
  : Result ERC20TransferPolicyType :=
  let* decoded := Ethers.AbiCoder_decode encodedPolicy in
  let policy :=
    mkPolicy "ERC20Transfer" "1.0.0"
             (JS.BigInt_toString (Ethers.d_erc20Decimals decoded))
             (JS.BigInt_toString (Ethers.d_maxAmount decoded))
             (Ethers.d_allowedTokens decoded)
             (Ethers.d_allowedRecipients decoded) in
  Zod.parse policySchema policy.

(** ** Vocabulary of the properties *)

(** A well-formed account address, as the schema sees it. *)
Definition wellFormedAddress (a : string) : bool :=
  Ethers.isPrefixedAddress (JS.chars a).

(** The field an issue names: the first key of its path. *)
Definition issueField (i : ZodIssue) : option string :=
  match path i with
  | Key k :: _ => Some k
  | _ => None
  end.

(** The first field, in the order of the shape, whose check fails
    ([version] has no check to fail). *)
Definition firstOffendingField (p : ERC20TransferPolicyType) : option string :=
  if negb (String.eqb (type p) "ERC20Transfer") then Some "type"
  else if negb (decimalsRefinement (erc20Decimals p)) then Some "erc20Decimals"
  else if negb (amountRefinement (maxAmount p)) then Some "maxAmount"
  else if negb (forallb wellFormedAddress (allowedTokens p)) then Some "allowedTokens"
  else if negb (forallb wellFormedAddress (allowedRecipients p))
       then Some "allowedRecipients"
  else None.

(** A decimal integer numeral: a non-empty run of the digits 0-9. *)
Definition isDecimalNumeral (s : string) : bool :=
  match JS.wholeNumeral 10 (JS.chars s) with
  | Some _ => true
  | None => false
  end.

(** The number a signed decimal numeral with an optional fraction
    denotes is negative: a minus sign, digits, optionally a point and
    digits, and some digit that is not 0. *)
Definition denotesNegative (s : string) : bool :=
  match Ethers.matchFixed (JS.chars s) with
  | Some (neg, whole, frac) =>
      neg
      && (0 <? Z.of_nat (List.length whole + List.length frac))
      && negb (forallb Ethers.isZeroChar (whole ++ frac))
  | None => false
  end.

(** A JavaScript array holds fewer than 2^32 elements; the lists of a
    record are such arrays. *)
Definition jsArray {A : Type} (l : list A) : Prop :=
  Z.of_nat (List.length l) < 2 ^ 32.

(** Addresses as the coders see them: the value of a hexadecimal digit,
    the 160-bit number an address denotes, the checksummed spelling
    [getAddress] returns, and a string with its letters A-Z in lower
    case. *)
Definition hexValue (c : ascii) : Z :=
  match JS.radixDigit 16 c with
  | Some d => d
  | None => 0
  end.

Definition addressNumber (a : string) : Z :=
  JS.radixValue 16 (map hexValue (skipn 2 (JS.chars a))).

Definition checksummed (a : string) : string :=
  JS.ofChars (Ethers.getChecksumAddress (JS.chars a)).

Definition lowerCase (s : string) : string :=
  JS.ofChars (map JS.toLower (JS.chars s)).

(** The standard ABI layout of the one-element argument list
    [(tuple(uint8, uint256, address[], address[]))], following the
    contract ABI specification: the head of the argument list is the
    offset of the tuple (32); the head of the tuple is four words, the
    two values and the offsets of the two arrays from the start of the
    tuple; each array is its length and one word per address.  Every
    word is 32 bytes, big-endian. *)
Definition word (v : Z) : list Z := Ethers.beBytes 32 v.

Definition abiArray (xs : list Z) : list Z :=
  word (Z.of_nat (List.length xs)) ++ List.concat (map word xs).

Definition abiTuple (decimals amount : Z) (tokens recipients : list Z) : list Z :=
  word decimals ++ word amount
  ++ word 128 ++ word (128 + 32 + 32 * Z.of_nat (List.length tokens))
  ++ abiArray tokens ++ abiArray recipients.

Definition abiLayout (decimals amount : Z) (tokens recipients : list Z) : list Z :=
  word 32 ++ abiTuple decimals amount tokens recipients.

(** A byte sequence in the expected tuple layout: the standard layout
    of some tuple. *)
Definition matchesLayout (bs : list Z) : Prop :=
  exists d a ts rs, bs = abiLayout d a ts rs.

(** *** Records used as examples *)

(** The record of the specification's scaling example. *)
Definition examplePolicy : ERC20TransferPolicyType :=
  mkPolicy "ERC20Transfer" "1.0.0" "18" "1"
           ["0xAAAAAAAAAAAAAAAAAAAAAAAAAAAAAAAAAAAAAAAA"]
           ["0xBBBBBBBBBBBBBBBBBBBBBBBBBBBBBBBBBBBBBBBB"].

(** [examplePolicy] with other strings for the two numeric fields. *)
Definition withNumerals (decimals amount : string) : ERC20TransferPolicyType :=
  mkPolicy "ERC20Transfer" "1.0.0" decimals amount
           (allowedTokens examplePolicy) (allowedRecipients examplePolicy).

(** [examplePolicy] with its addresses in their checksummed spelling. *)
Definition checksummedPolicy : ERC20TransferPolicyType :=
  mkPolicy "ERC20Transfer" "1.0.0" "18" "1"
           ["0xaAaAaAaaAaAaAaaAaAAAAAAAAaaaAaAaAaaAaaAa"]
           ["0xbBbBBBBbbBBBbbbBbbBbbbbBBbBbbbbBbBbbBBbB"].

(** *** Vocabulary of the proofs *)

(** A decimal digit and a hexadecimal digit as code units, a byte as an
    integer. *)
Definition DecChar (c : ascii) : Prop := 48 <= JS.codeUnit c <= 57.
Definition HexChar (c : ascii) : Prop := Ethers.isHexChar c = true.
Definition Bytes (bs : list Z) : Prop := Forall (fun b => 0 <= b < 256) bs.

(** The digits [BigInt_toString] prints for [n >= 0]. *)
Definition digitsOf (n : Z) : list Z :=
  rev (JS.decimalDigits (Z.to_nat (Z.log2 n)) n).

(** Bytes from pairs of hexadecimal digits. *)
Fixpoint pairUp (ds : list Z) : list Z :=
  match ds with
  | d0 :: d1 :: r => d0 * 16 + d1 :: pairUp r
  | _ => []
  end.

(** Side conditions on literal code units: a hypothesis, or one side of
    a comparison of two literals. *)
Ltac literal_side :=
  first [assumption | left; reflexivity | right; reflexivity | discriminate].

(** Inversion of a successful [bind] in a hypothesis; [bind_as] names
    what was bound. *)
Ltac bind_inv H :=
  match type of H with
  | bind ?m _ = Ok _ =>
      let E := fresh "E" in
      destruct m eqn:E; cbn [bind] in H; [|discriminate H]
  end.

Tactic Notation "bind_as" hyp(H) simple_intropattern(pat) :=
  match type of H with
  | bind ?m _ = Ok _ =>
      let E := fresh "E" in
      destruct m as [pat|] eqn:E; cbn [bind] in H; [|discriminate H]
  end.

(** Case analysis on every integer comparison in sight. *)
Ltac zbool :=
  repeat match goal with
         | |- context [?a <=? ?b] => destruct (Z.leb_spec a b)
         | |- context [?a <? ?b] => destruct (Z.ltb_spec a b)
         | |- context [?a =? ?b] => destruct (Z.eqb_spec a b)
         | H : context [?a <=? ?b] |- _ => destruct (Z.leb_spec a b)
         | H : context [?a <? ?b] |- _ => destruct (Z.ltb_spec a b)
         | H : context [?a =? ?b] |- _ => destruct (Z.eqb_spec a b)
         end.

Ltac zcases :=
  repeat (progress (zbool; cbn [andb orb negb] in *));
  try lia; try discriminate; auto; try (f_equal; lia).

(** Settle every integer comparison that linear arithmetic decides. *)
Ltac zdecide :=
  repeat match goal with
         | |- context [?a <=? ?b] =>
             first [rewrite (proj2 (Z.leb_le a b)) by lia
                   | rewrite (proj2 (Z.leb_gt a b)) by lia]
         | |- context [?a <? ?b] =>
             first [rewrite (proj2 (Z.ltb_lt a b)) by lia
                   | rewrite (proj2 (Z.ltb_ge a b)) by lia]
         | |- context [?a =? ?b] =>
             first [rewrite (proj2 (Z.eqb_eq a b)) by lia
                   | rewrite (proj2 (Z.eqb_neq a b)) by lia]
         end;
  cbn [andb orb negb].

(** The ranges of code units the character tests tell apart. *)
Ltac char_ranges c :=
  let H := fresh "Hrange" in
  assert (H : JS.codeUnit c < 48 \/ 48 <= JS.codeUnit c <= 57
              \/ 57 < JS.codeUnit c < 65 \/ 65 <= JS.codeUnit c <= 90
              \/ 90 < JS.codeUnit c < 97 \/ 97 <= JS.codeUnit c <= 122
              \/ 122 < JS.codeUnit c) by lia;
  destruct H as [H|[H|[H|[H|[H|[H|H]]]]]].

(** * Properties *)

Import JS.
Import Ethers.

(** ** The model against known values *)

(** Keccak-256 of the empty string:
    c5d24601 86f7233c 927e7db2 dcc703c0 e500b653 ca82273b 7bfad804 5d85a470. *)
Example keccak256_empty :
  Ethers.hexlify (Keccak.keccak256 [])
  = "0xc5d2460186f7233c927e7db2dcc703c0e500b653ca82273b7bfad8045d85a470".
Proof. vm_compute; reflexivity. Qed.

(** Two addresses of EIP-55's test cases, and one with a letter in the
    wrong case. *)
Example getAddress_eip55 :
  Ethers.getAddress "0x5aaeb6053f3e94c9b9a09f33669435e7ef1beaed"
  = Ok "0x5aAeb6053F3E94C9b9A09f33669435E7Ef1BeAed"
  /\ Ethers.getAddress "0xFB6916095CA1DF60BB79CE92CE3EA74C37C5D359"
     = Ok "0xfB6916095ca1df60bB79Ce92cE3Ea74c37c5d359"
  /\ Ethers.getAddress "0x5AAeb6053F3E94C9b9A09f33669435E7Ef1BeAed"
     = Throw (EthersError "INVALID_ARGUMENT" "bad address checksum").
Proof. repeat split; vm_compute; reflexivity. Qed.

Example parseInt_values :
  JS.parseInt "  42px" 10 = JS.Int 42
  /\ JS.parseInt "-0x1F" 0 = JS.Int (-31)
  /\ JS.parseInt "0x1F" 10 = JS.Int 0
  /\ JS.parseInt "" 10 = JS.NaN
  /\ JS.parseInt ".5" 10 = JS.NaN.
Proof. repeat split; reflexivity. Qed.

Example StringToBigInt_values :
  JS.StringToBigInt " 0b11 " = Some 3
  /\ JS.StringToBigInt "+007" = Some 7
  /\ JS.StringToBigInt "-0x10" = None
  /\ JS.StringToBigInt "12abc" = None
  /\ JS.StringToBigInt "" = Some 0.
Proof. repeat split; reflexivity. Qed.

Example parseUnits_values :
  Ethers.parseUnits "1.5" (JS.Int 18) = Ok 1500000000000000000
  /\ Ethers.parseUnits "1.50" (JS.Int 1) = Ok 15
  /\ Ethers.parseUnits "1.234" (JS.Int 2)
     = Throw (EthersError "NUMERIC_FAULT" "too many decimals for format")
  /\ Ethers.parseUnits "1" (JS.Int 81)
     = Throw (EthersError "INVALID_ARGUMENT"
                "invalid FixedNumber decimals (too large)").
Proof. repeat split; vm_compute; reflexivity. Qed.

(** The wire form of the specification's example. *)
Example encodePolicy_example :
  encodePolicy examplePolicy
  = Ok "0x000000000000000000000000000000000000000000000000000000000000002000000000000000000000000000000000000000000000000000000000000000120000000000000000000000000000000000000000000000000de0b6b3a7640000000000000000000000000000000000000000000000000000000000000000008000000000000000000000000000000000000000000000000000000000000000c00000000000000000000000000000000000000000000000000000000000000001000000000000000000000000aaaaaaaaaaaaaaaaaaaaaaaaaaaaaaaaaaaaaaaa0000000000000000000000000000000000000000000000000000000000000001000000000000000000000000bbbbbbbbbbbbbbbbbbbbbbbbbbbbbbbbbbbbbbbb".
Proof. vm_compute; reflexivity. Qed.



(** ** Validation *)

Section ArrayIssues.

Variable field : string.

Lemma arrayFrom_address_nil (i : nat) (vs : list string) :
  forallb wellFormedAddress vs = true ->
  Zod.arrayFrom BaseEthereumAddressSchema [Key field] i vs = [].
Proof.
  revert i; induction vs as [|v vs IH]; intros i H; simpl in *; auto.
  apply andb_true_iff in H as [Hv Hvs].
  unfold BaseEthereumAddressSchema at 1, Zod.regex.
  unfold wellFormedAddress in Hv; rewrite Hv; simpl; auto.
Qed.

Lemma arrayFrom_address_names (i : nat) (vs : list string) :
  Forall (fun x => issueField x = Some field)
         (Zod.arrayFrom BaseEthereumAddressSchema [Key field] i vs).
Proof.
  revert i; induction vs as [|v vs IH]; intros i; simpl; auto.
  apply Forall_app; split; auto.
  unfold BaseEthereumAddressSchema, Zod.regex.
  destruct (Ethers.isPrefixedAddress (JS.chars v)); constructor; auto.
Qed.

Lemma arrayFrom_address_cons (i : nat) (vs : list string) :
  forallb wellFormedAddress vs = false ->
  exists x rest,
    Zod.arrayFrom BaseEthereumAddressSchema [Key field] i vs = x :: rest.
Proof.
  revert i; induction vs as [|v vs IH]; intros i H; simpl in *; [discriminate|].
  unfold BaseEthereumAddressSchema at 1, Zod.regex.
  unfold wellFormedAddress in H at 1.
  destruct (Ethers.isPrefixedAddress (JS.chars v)); simpl in *; eauto.
Qed.

End ArrayIssues.

(** The issues of [policySchema] at the root, field by field. *)
Lemma policySchema_issues (p : ERC20TransferPolicyType) :
  policySchema [] p =
    (if String.eqb (type p) "ERC20Transfer" then []
     else [mkIssue [Key "type"] "Invalid literal value, expected ERC20Transfer"])
    ++ (if decimalsRefinement (erc20Decimals p) then []
        else [mkIssue [Key "erc20Decimals"]
                "Invalid decimals format. Must be a non-negative integer not exceeding 255."])
    ++ (if amountRefinement (maxAmount p) then []
        else [mkIssue [Key "maxAmount"]
                "Invalid amount format. Must be a positive integer."])
    ++ Zod.arrayFrom BaseEthereumAddressSchema [Key "allowedTokens"] 0 (allowedTokens p)
    ++ Zod.arrayFrom BaseEthereumAddressSchema [Key "allowedRecipients"] 0
         (allowedRecipients p).
Proof. reflexivity. Qed.

(** [validate] succeeds exactly when the five checks pass, and then
    returns the record it was given. *)
Lemma validate_ok_iff (p q : ERC20TransferPolicyType) :
  validate p = Ok q <->
  q = p /\ firstOffendingField p = None.
Proof.
  unfold validate, Zod.parse, firstOffendingField.
  rewrite policySchema_issues.
  destruct (String.eqb (type p) "ERC20Transfer"); simpl;
    [|split; [discriminate | intros [_ H]; discriminate]].
  destruct (decimalsRefinement (erc20Decimals p)); simpl;
    [|split; [discriminate | intros [_ H]; discriminate]].
  destruct (amountRefinement (maxAmount p)); simpl;
    [|split; [discriminate | intros [_ H]; discriminate]].
  destruct (forallb wellFormedAddress (allowedTokens p)) eqn:Ht; simpl.
  - rewrite (arrayFrom_address_nil _ _ _ Ht); simpl.
    destruct (forallb wellFormedAddress (allowedRecipients p)) eqn:Hr; simpl.
    + rewrite (arrayFrom_address_nil _ _ _ Hr).
      split; [intros H; inversion H; auto | intros [-> _]; auto].
    + destruct (arrayFrom_address_cons "allowedRecipients" 0 _ Hr) as (x & rest & ->).
      split; [discriminate | intros [_ H]; discriminate].
  - destruct (arrayFrom_address_cons "allowedTokens" 0 _ Ht) as (x & rest & ->).
    simpl. split; [discriminate | intros [_ H]; discriminate].
Qed.

Lemma validate_ok_same (p q : ERC20TransferPolicyType) :
  validate p = Ok q -> q = p.
Proof. intros H; apply validate_ok_iff in H; tauto. Qed.

Lemma validate_ok_checks (p q : ERC20TransferPolicyType) :
  validate p = Ok q ->
  type p = "ERC20Transfer"
  /\ decimalsRefinement (erc20Decimals p) = true
  /\ amountRefinement (maxAmount p) = true
  /\ forallb wellFormedAddress (allowedTokens p) = true
  /\ forallb wellFormedAddress (allowedRecipients p) = true.
Proof.
  intros H; apply validate_ok_iff in H as [_ H].
  unfold firstOffendingField in H.
  destruct (String.eqb (type p) "ERC20Transfer") eqn:E1; simpl in H; [|discriminate].
  destruct (decimalsRefinement (erc20Decimals p)); simpl in H; [|discriminate].
  destruct (amountRefinement (maxAmount p)); simpl in H; [|discriminate].
  destruct (forallb wellFormedAddress (allowedTokens p)); simpl in H; [|discriminate].
  destruct (forallb wellFormedAddress (allowedRecipients p)); simpl in H; [|discriminate].
  apply String.eqb_eq in E1. auto.
Qed.

Lemma validate_checks_ok (p : ERC20TransferPolicyType) :
  type p = "ERC20Transfer" ->
  decimalsRefinement (erc20Decimals p) = true ->
  amountRefinement (maxAmount p) = true ->
  forallb wellFormedAddress (allowedTokens p) = true ->
  forallb wellFormedAddress (allowedRecipients p) = true ->
  validate p = Ok p.
Proof.
  intros H1 H2 H3 H4 H5. apply validate_ok_iff. split; auto.
  unfold firstOffendingField. rewrite H1, H2, H3, H4, H5. reflexivity.
Qed.

Lemma decimalsRefinement_spec (s : string) :
  decimalsRefinement s = true <->
  exists n, JS.parseInt s 10 = JS.Int n /\ 0 <= n <= 255.
Proof.
  unfold decimalsRefinement.
  destruct (JS.parseInt s 10) as [|n]; simpl.
  - split; [discriminate | intros (n & H & _); discriminate].
  - rewrite andb_true_iff, !Z.leb_le. split.
    + intros [? ?]; exists n; split; auto; lia.
    + intros (m & H & ?). inversion H; subst; lia.
Qed.

Lemma amountRefinement_spec (s : string) :
  amountRefinement s = true <->
  exists n, JS.parseInt s 10 = JS.Int n /\ 0 <= n.
Proof.
  unfold amountRefinement.
  destruct (JS.parseInt s 10) as [|n]; simpl.
  - split; [discriminate | intros (n & H & _); discriminate].
  - rewrite Z.leb_le. split.
    + intros ?; exists n; split; auto.
    + intros (m & H & ?). inversion H; subst; lia.
Qed.

Lemma validate_rejects (p : ERC20TransferPolicyType) (f : string) :
  firstOffendingField p = Some f -> exists e, validate p = Throw e.
Proof.
  intros H. destruct (validate p) as [q|e] eqn:E; eauto.
  apply validate_ok_iff in E as [_ E]. congruence.
Qed.

(** ** Code units, numerals and their values *)

Lemma codeUnit_range (c : ascii) : 0 <= codeUnit c < 256.
Proof.
  unfold codeUnit. pose proof (N_ascii_bounded c). lia.
Qed.

Lemma codeUnit_of (n : Z) :
  0 <= n < 256 -> codeUnit (ascii_of_N (Z.to_N n)) = n.
Proof.
  intros H. unfold codeUnit. rewrite N_ascii_embedding; lia.
Qed.

Lemma codeUnit_inj (c k : ascii) : codeUnit c = codeUnit k -> c = k.
Proof.
  unfold codeUnit. intros H.
  rewrite <- (ascii_N_embedding c), <- (ascii_N_embedding k).
  f_equal. lia.
Qed.

Lemma eqb_codeUnit (c k : ascii) : Ascii.eqb c k = (codeUnit c =? codeUnit k).
Proof.
  destruct (Ascii.eqb_spec c k) as [->|Hne].
  - now rewrite Z.eqb_refl.
  - symmetry. apply Z.eqb_neq. intros H. apply Hne. now apply codeUnit_inj.
Qed.

Lemma chars_ofChars (l : list ascii) : chars (ofChars l) = l.
Proof. apply list_ascii_of_string_of_list_ascii. Qed.

Lemma ofChars_chars (s : string) : ofChars (chars s) = s.
Proof. apply string_of_list_ascii_of_string. Qed.

Lemma codeUnit_digitChar (d : Z) :
  0 <= d <= 9 -> codeUnit (digitChar d) = 48 + d.
Proof. intros H. unfold digitChar. apply codeUnit_of. lia. Qed.

Lemma DecChar_digitChar (d : Z) : 0 <= d <= 9 -> DecChar (digitChar d).
Proof. intros H. unfold DecChar. rewrite codeUnit_digitChar; lia. Qed.

Lemma radixDigit_DecChar (R : Z) (c : ascii) :
  DecChar c -> 10 <= R -> radixDigit R c = Some (codeUnit c - 48).
Proof.
  unfold DecChar, radixDigit, digitValue. intros H HR.
  replace ((48 <=? codeUnit c) && (codeUnit c <=? 57)) with true
    by (symmetry; apply andb_true_iff; split; apply Z.leb_le; lia).
  replace (codeUnit c - 48 <? R) with true; auto.
  symmetry; apply Z.ltb_lt; lia.
Qed.

Lemma DecChar_not_space (c : ascii) : DecChar c -> isWhiteSpace c = false.
Proof.
  unfold DecChar, isWhiteSpace. intros H.
  cbv zeta. repeat (apply orb_false_iff; split);
    [apply andb_false_iff; right; apply Z.leb_gt; lia
    | apply Z.eqb_neq; lia | apply Z.eqb_neq; lia].
Qed.

(** What [trim] leaves alone: a string that neither starts nor ends with
    white space. *)
Lemma trimStart_head (c : ascii) (s : list ascii) :
  isWhiteSpace c = false -> trimStart (c :: s) = c :: s.
Proof. intros H; simpl; now rewrite H. Qed.

Lemma trim_no_space (s : list ascii) :
  Forall (fun c => isWhiteSpace c = false) s -> trim s = s.
Proof.
  intros H. unfold trim, trimEnd.
  assert (Hs : forall l, Forall (fun c => isWhiteSpace c = false) l -> trimStart l = l).
  { intros [|c l] Hl; auto. inversion Hl; subst. now apply trimStart_head. }
  rewrite (Hs s H), Hs, rev_involutive; auto.
  now apply Forall_rev.
Qed.

Section DecimalStrings.

Variable s : list ascii.
Hypothesis Hs : Forall DecChar s.

Lemma DecChars_no_space : Forall (fun c => isWhiteSpace c = false) s.
Proof. eapply Forall_impl; [|exact Hs]. apply DecChar_not_space. Qed.

Lemma DecChars_trimStart : trimStart s = s.
Proof.
  destruct s as [|c l]; auto. inversion Hs; subst.
  apply trimStart_head. now apply DecChar_not_space.
Qed.

Lemma DecChars_trim : trim s = s.
Proof. apply trim_no_space, DecChars_no_space. Qed.

Lemma DecChars_headIs (k : ascii) :
  codeUnit k < 48 \/ 57 < codeUnit k -> headIs k s = false.
Proof.
  intros Hk. destruct s as [|c l]; auto. inversion Hs; subst.
  simpl. rewrite eqb_codeUnit. apply Z.eqb_neq. unfold DecChar in *. lia.
Qed.

Lemma DecChars_hasRadixPrefix (l u : ascii) :
  codeUnit l < 48 \/ 57 < codeUnit l ->
  codeUnit u < 48 \/ 57 < codeUnit u ->
  hasRadixPrefix l u s = false.
Proof.
  intros Hl Hu. destruct s as [|c0 [|c1 r]]; auto.
  inversion Hs as [|? ? _ H1]; subst. inversion H1; subst.
  simpl. apply andb_false_iff; right. apply orb_false_iff.
  rewrite !eqb_codeUnit. unfold DecChar in *.
  split; apply Z.eqb_neq; lia.
Qed.

End DecimalStrings.

Lemma DecChars_allDigits (R : Z) (s : list ascii) :
  Forall DecChar s -> 10 <= R ->
  allDigits R s = Some (map (fun c => codeUnit c - 48) s).
Proof.
  intros Hs HR. induction Hs as [|c l Hc Hl IH]; simpl; auto.
  rewrite (radixDigit_DecChar R c Hc HR), IH. reflexivity.
Qed.

Lemma DecChars_digitPrefix (R : Z) (s : list ascii) :
  Forall DecChar s -> 10 <= R ->
  digitPrefix R s = map (fun c => codeUnit c - 48) s.
Proof.
  intros Hs HR. induction Hs as [|c l Hc Hl IH]; simpl; auto.
  rewrite (radixDigit_DecChar R c Hc HR), IH. reflexivity.
Qed.


(** The value of a digit string, one digit at a time. *)
Lemma radixValue_app (R : Z) (a b : list Z) :
  radixValue R (a ++ b) =
  radixValue R a * R ^ Z.of_nat (List.length b) + radixValue R b.
Proof.
  unfold radixValue.
  assert (G : forall l acc,
             fold_left (fun x d => x * R + d) l acc =
             acc * R ^ Z.of_nat (List.length l)
             + fold_left (fun x d => x * R + d) l 0).
  { induction l as [|d l IH]; intros acc; simpl List.length.
    - simpl. lia.
    - cbn [fold_left]. rewrite (IH (acc * R + d)), (IH (0 * R + d)).
      rewrite Nat2Z.inj_succ, Z.pow_succ_r by lia. lia. }
  rewrite fold_left_app, G. reflexivity.
Qed.

Lemma radixValue_cons (R d : Z) (l : list Z) :
  radixValue R (d :: l) = d * R ^ Z.of_nat (List.length l) + radixValue R l.
Proof.
  change (d :: l) with ([d] ++ l). rewrite radixValue_app.
  unfold radixValue at 1; simpl. lia.
Qed.

Lemma radixValue_bound (R : Z) (l : list Z) :
  1 < R -> Forall (fun d => 0 <= d < R) l ->
  0 <= radixValue R l < R ^ Z.of_nat (List.length l).
Proof.
  intros HR H. induction H as [|d l Hd Hl IH].
  - unfold radixValue; simpl; lia.
  - rewrite radixValue_cons. simpl List.length.
    rewrite Nat2Z.inj_succ, Z.pow_succ_r by lia.
    assert (0 < R ^ Z.of_nat (List.length l)) by (apply Z.pow_pos_nonneg; lia).
    nia.
Qed.

Lemma radixValue_zeros (R : Z) (n : nat) : radixValue R (repeat 0 n) = 0.
Proof.
  unfold radixValue. induction n as [|n IH]; simpl; auto.
Qed.

Lemma decimalDigits_spec (fuel : nat) (n : Z) :
  0 <= n < 2 ^ (Z.of_nat fuel + 1) ->
  Forall (fun d => 0 <= d <= 9) (decimalDigits fuel n)
  /\ fold_right (fun d a => a * 10 + d) 0 (decimalDigits fuel n) = n
  /\ decimalDigits fuel n <> [].
Proof.
  revert n. induction fuel as [|f IH]; intros n Hn.
  - assert (Hn' : n = 0 \/ n = 1)
      by (change (2 ^ (Z.of_nat 0 + 1)) with 2 in Hn; lia).
    destruct Hn' as [-> | ->]; cbn; (split; [|split]); try discriminate;
      try reflexivity; repeat constructor; lia.
  - simpl decimalDigits. destruct (n <? 10) eqn:E.
    + apply Z.ltb_lt in E. (split; [|split]); cbn [fold_right];
        try discriminate; try lia.
      constructor; auto; lia.
    + apply Z.ltb_ge in E.
      assert (Hq : 0 <= n / 10 < 2 ^ (Z.of_nat f + 1)).
      { split; [apply Z.div_pos; lia|].
        apply Z.div_lt_upper_bound; [lia|].
        replace (Z.of_nat (S f) + 1) with (Z.succ (Z.of_nat f + 1)) in Hn by lia.
        rewrite Z.pow_succ_r in Hn by lia. lia. }
      destruct (IH _ Hq) as (H1 & H2 & H3).
      repeat split; try discriminate.
      * constructor; auto. pose proof (Z.mod_pos_bound n 10); lia.
      * cbn [fold_right]. rewrite H2. pose proof (Z.div_mod n 10). lia.
Qed.

Lemma digitsOf_spec (n : Z) :
  0 <= n ->
  Forall (fun d => 0 <= d <= 9) (digitsOf n)
  /\ radixValue 10 (digitsOf n) = n
  /\ digitsOf n <> [].
Proof.
  intros Hn. unfold digitsOf.
  assert (Hb : 0 <= n < 2 ^ (Z.of_nat (Z.to_nat (Z.log2 n)) + 1)).
  { split; auto. rewrite Z2Nat.id by apply Z.log2_nonneg.
    destruct (Z.eq_dec n 0) as [->|Hz]; [simpl; lia|].
    replace (Z.log2 n + 1) with (Z.succ (Z.log2 n)) by lia.
    apply Z.log2_spec; lia. }
  destruct (decimalDigits_spec _ _ Hb) as (H1 & H2 & H3).
  repeat split.
  - now apply Forall_rev.
  - unfold radixValue.
    rewrite <- (fold_left_rev_right (fun d a => a * 10 + d)), rev_involutive.
    exact H2.
  - intros E. apply H3. apply (f_equal (@rev Z)) in E.
    now rewrite rev_involutive in E.
Qed.

Lemma digitChars_DecChars (ds : list Z) :
  Forall (fun d => 0 <= d <= 9) ds -> Forall DecChar (map digitChar ds).
Proof.
  intros H. apply Forall_map. eapply Forall_impl; [|exact H].
  intros d Hd. now apply DecChar_digitChar.
Qed.

Lemma digitChars_values (ds : list Z) :
  Forall (fun d => 0 <= d <= 9) ds ->
  map (fun c => codeUnit c - 48) (map digitChar ds) = ds.
Proof.
  intros H. induction H as [|d l Hd Hl IH]; simpl; auto.
  rewrite IH, codeUnit_digitChar by lia. f_equal. lia.
Qed.

Lemma toString_chars_nonneg (v : Z) :
  0 <= v -> chars (BigInt_toString v) = map digitChar (digitsOf v).
Proof.
  intros Hv. unfold BigInt_toString. rewrite chars_ofChars.
  replace (v <? 0) with false by (symmetry; apply Z.ltb_ge; lia).
  rewrite Z.abs_eq by lia. reflexivity.
Qed.

Lemma toString_chars_neg (v : Z) :
  v < 0 ->
  chars (BigInt_toString v) = "-"%char :: map digitChar (digitsOf (- v)).
Proof.
  intros Hv. unfold BigInt_toString. rewrite chars_ofChars.
  replace (v <? 0) with true by (symmetry; apply Z.ltb_lt; lia).
  rewrite Z.abs_neq by lia. reflexivity.
Qed.

(** The printed digits of [v >= 0], as the facts the parsers need. *)
Lemma toString_digits (v : Z) :
  0 <= v ->
  exists s,
    chars (BigInt_toString v) = s
    /\ Forall DecChar s
    /\ s <> []
    /\ radixValue 10 (map (fun c => codeUnit c - 48) s) = v.
Proof.
  intros Hv. destruct (digitsOf_spec v Hv) as (H1 & H2 & H3).
  exists (map digitChar (digitsOf v)). repeat split.
  - now apply toString_chars_nonneg.
  - now apply digitChars_DecChars.
  - destruct (digitsOf v); [congruence | discriminate].
  - now rewrite digitChars_values.
Qed.

Lemma wholeNumeral_DecChars (s : list ascii) :
  Forall DecChar s -> s <> [] ->
  wholeNumeral 10 s = Some (radixValue 10 (map (fun c => codeUnit c - 48) s)).
Proof.
  intros Hs Hne. unfold wholeNumeral.
  destruct s; [congruence|].
  rewrite DecChars_allDigits by (auto; lia). reflexivity.
Qed.

Lemma StringToBigInt_DecChars (s : list ascii) :
  Forall DecChar s -> s <> [] ->
  StringToBigInt (ofChars s)
  = Some (radixValue 10 (map (fun c => codeUnit c - 48) s)).
Proof.
  intros Hs Hne. unfold StringToBigInt.
  rewrite chars_ofChars, DecChars_trim by auto.
  rewrite !DecChars_hasRadixPrefix by literal_side.
  rewrite !DecChars_headIs by literal_side.
  rewrite wholeNumeral_DecChars by auto.
  destruct s; [congruence | reflexivity].
Qed.

Lemma getBigInt_DecChars (s : list ascii) :
  Forall DecChar s -> s <> [] ->
  Ethers.getBigInt (ofChars s)
  = Ok (radixValue 10 (map (fun c => codeUnit c - 48) s)).
Proof.
  intros Hs Hne. unfold Ethers.getBigInt.
  rewrite chars_ofChars, (DecChars_headIs s) by literal_side.
  rewrite (StringToBigInt_DecChars s) by auto.
  destruct s; [congruence | reflexivity].
Qed.

(** [getBigInt] reads back what [BigInt_toString] prints. *)
Lemma getBigInt_toString (v : Z) :
  Ethers.getBigInt (BigInt_toString v) = Ok v.
Proof.
  destruct (Z_lt_le_dec v 0) as [Hneg|Hpos].
  - assert (Hn : 0 <= - v) by lia.
    destruct (digitsOf_spec _ Hn) as (H1 & H2 & H3).
    pose proof (digitChars_DecChars _ H1) as Hd.
    assert (Hne : map digitChar (digitsOf (- v)) <> [])
      by (destruct (digitsOf (- v)); [congruence | discriminate]).
    unfold Ethers.getBigInt.
    rewrite toString_chars_neg by lia.
    cbn [headIs tl]. rewrite Ascii.eqb_refl.
    rewrite DecChars_headIs by literal_side.
    rewrite StringToBigInt_DecChars, digitChars_values, H2 by auto.
    cbn. f_equal. lia.
  - destruct (toString_digits v Hpos) as (s & Hs & Hd & Hne & Hv).
    rewrite <- (ofChars_chars (BigInt_toString v)), Hs.
    rewrite getBigInt_DecChars by auto. now rewrite Hv.
Qed.

(** [parseInt], with radix 10 or without a radix, reads back what
    [BigInt_toString] prints for a natural number. *)
Lemma parseInt_DecChars (s : list ascii) (radix : Z) :
  Forall DecChar s -> s <> [] -> radix = 0 \/ radix = 10 ->
  parseInt (ofChars s) radix
  = Int (radixValue 10 (map (fun c => codeUnit c - 48) s)).
Proof.
  intros Hs Hne Hr. unfold parseInt.
  rewrite chars_ofChars, DecChars_trimStart by auto.
  rewrite !DecChars_headIs by literal_side.
  rewrite DecChars_hasRadixPrefix by literal_side.
  cbn [orb andb negb].
  assert (E : (if negb (radix =? 0) && ((radix <? 2) || (36 <? radix))
               then true else false) = false)
    by (destruct Hr as [-> | ->]; reflexivity).
  destruct (negb (radix =? 0) && ((radix <? 2) || (36 <? radix)));
    [discriminate|].
  rewrite andb_false_r.
  replace (if radix =? 0 then 10 else radix) with 10
    by (destruct Hr as [-> | ->]; reflexivity).
  rewrite DecChars_digitPrefix by (auto; lia).
  destruct s as [|c l]; [congruence|].
  cbn [map]. f_equal. lia.
Qed.

Lemma parseInt_toString (v radix : Z) :
  0 <= v -> radix = 0 \/ radix = 10 ->
  parseInt (BigInt_toString v) radix = Int v.
Proof.
  intros Hv Hr.
  destruct (toString_digits v Hv) as (s & Hs & Hd & Hne & Hval).
  rewrite <- (ofChars_chars (BigInt_toString v)), Hs.
  rewrite parseInt_DecChars by auto. now rewrite Hval.
Qed.

Lemma decimalsRefinement_toString (v : Z) :
  0 <= v <= 255 -> decimalsRefinement (BigInt_toString v) = true.
Proof.
  intros Hv. apply decimalsRefinement_spec. exists v.
  split; [apply parseInt_toString; lia | lia].
Qed.

Lemma amountRefinement_toString (v : Z) :
  0 <= v -> amountRefinement (BigInt_toString v) = true.
Proof.
  intros Hv. apply amountRefinement_spec. exists v.
  split; [apply parseInt_toString; lia | lia].
Qed.

(** ** [parseUnits] on decimal numerals *)

Lemma isDecDigit_DecChar (c : ascii) : DecChar c -> Ethers.isDecDigit c = true.
Proof.
  intros H. unfold Ethers.isDecDigit, isRadixDigit.
  now rewrite (radixDigit_DecChar 10 c H) by lia.
Qed.

Lemma spanDigits_DecChars (s : list ascii) :
  Forall DecChar s -> Ethers.spanDigits s = (s, []).
Proof.
  intros H. induction H as [|c l Hc Hl IH]; simpl; auto.
  now rewrite isDecDigit_DecChar, IH.
Qed.

Lemma matchFixed_DecChars (s : list ascii) :
  Forall DecChar s -> Ethers.matchFixed s = Some (false, s, []).
Proof.
  intros H. unfold Ethers.matchFixed.
  rewrite DecChars_headIs by literal_side.
  rewrite spanDigits_DecChars by auto. reflexivity.
Qed.

Lemma zeros_DecChars (n : nat) : Forall DecChar (repeat "0"%char n).
Proof.
  induction n; simpl; constructor; auto. unfold DecChar. cbn. lia.
Qed.

Lemma zeros_values (n : nat) :
  map (fun c => codeUnit c - 48) (repeat "0"%char n) = repeat 0 n.
Proof. induction n; simpl; auto. now rewrite IHn. Qed.

(** On a decimal numeral [FixedNumber_fromString] appends [decimals]
    zeros, that is, it multiplies by [10 ^ decimals]; it refuses more
    than 80 decimals and a result of 512 bits or more. *)
Lemma FixedNumber_fromString_DecChars (s : list ascii) (decimals : Z) :
  Forall DecChar s -> s <> [] -> 0 <= decimals ->
  let v := radixValue 10 (map (fun c => codeUnit c - 48) s) * 10 ^ decimals in
  Ethers.FixedNumber_fromString (ofChars s) decimals =
    let* _ := assert (decimals <=? 80) "INVALID_ARGUMENT"
                     "invalid FixedNumber decimals (too large)" in
    let* _ := assert (v <? 2 ^ 511) "NUMERIC_FAULT" "overflow" in
    Ok v.
Proof.
  intros Hs Hne Hd v. unfold Ethers.FixedNumber_fromString.
  rewrite chars_ofChars, matchFixed_DecChars by auto.
  assert (Hlen : (0 <? Z.of_nat (List.length s + List.length (@nil ascii))) = true).
  { apply Z.ltb_lt. destruct s; [congruence | simpl; lia]. }
  rewrite Hlen. cbn [assert bind].
  destruct (decimals <=? 80); cbn [assert bind]; auto.
  cbn [app List.length].
  rewrite Nat.sub_0_r.
  rewrite skipn_all2 by (rewrite repeat_length; lia).
  rewrite firstn_all2 by (rewrite repeat_length; lia).
  cbn [forallb assert bind].
  assert (Hw : match s with [] => ["0"%char] | _ :: _ => s end = s)
    by (destruct s; [congruence | reflexivity]).
  rewrite Hw.
  rewrite DecChars_digitPrefix
    by (try lia; apply Forall_app; split; auto using zeros_DecChars).
  rewrite map_app, zeros_values, radixValue_app, radixValue_zeros, repeat_length.
  rewrite Z2Nat.id, Z.add_0_r by lia.
  fold v.
  assert (Hv0 : 0 <= v).
  { unfold v. apply Z.mul_nonneg_nonneg; [|apply Z.pow_nonneg; lia].
    apply radixValue_bound; [lia|].
    apply Forall_map. eapply Forall_impl; [|exact Hs].
    unfold DecChar; intros; lia. }
  assert (0 < 2 ^ 511) by (apply Z.pow_pos_nonneg; lia).
  replace (- 2 ^ 511 <=? v) with true by (symmetry; apply Z.leb_le; lia).
  reflexivity.
Qed.

Lemma parseUnits_numerals (a d : Z) :
  0 <= a -> 0 <= d ->
  Ethers.parseUnits (BigInt_toString a) (Int d) =
    let* _ := assert (d <=? Ethers.maxValue) "INVALID_ARGUMENT" "overflow" in
    let* _ := assert (d <=? 80) "INVALID_ARGUMENT"
                     "invalid FixedNumber decimals (too large)" in
    let* _ := assert (a * 10 ^ d <? 2 ^ 511) "NUMERIC_FAULT" "overflow" in
    Ok (a * 10 ^ d).
Proof.
  intros Ha Hd.
  destruct (toString_digits a Ha) as (s & Hs & Hdec & Hne & Hval).
  unfold Ethers.parseUnits, Ethers.getNumber.
  replace (- Ethers.maxValue <=? d) with true
    by (symmetry; apply Z.leb_le; unfold Ethers.maxValue; lia).
  cbn [andb]. destruct (d <=? Ethers.maxValue); cbn [assert bind]; auto.
  rewrite <- (ofChars_chars (BigInt_toString a)), Hs.
  rewrite FixedNumber_fromString_DecChars by auto. now rewrite Hval.
Qed.

Lemma parseUnits_toString (a d : Z) :
  0 <= a -> 0 <= d <= 80 -> a * 10 ^ d < 2 ^ 511 ->
  Ethers.parseUnits (BigInt_toString a) (Int d) = Ok (a * 10 ^ d).
Proof.
  intros Ha Hd Hb. rewrite parseUnits_numerals by lia.
  replace (d <=? Ethers.maxValue) with true
    by (symmetry; apply Z.leb_le; unfold Ethers.maxValue; lia).
  replace (d <=? 80) with true by (symmetry; apply Z.leb_le; lia).
  replace (a * 10 ^ d <? 2 ^ 511) with true by (symmetry; apply Z.ltb_lt; lia).
  reflexivity.
Qed.

Lemma parseUnits_toString_inv (a d v : Z) :
  0 <= a -> 0 <= d ->
  Ethers.parseUnits (BigInt_toString a) (Int d) = Ok v ->
  v = a * 10 ^ d /\ d <= 80.
Proof.
  intros Ha Hd. rewrite parseUnits_numerals by lia. unfold assert.
  destruct (d <=? Ethers.maxValue); cbn [bind]; [|discriminate].
  destruct (d <=? 80) eqn:E; cbn [bind]; [|discriminate].
  destruct (a * 10 ^ d <? 2 ^ 511); cbn [bind]; [|discriminate].
  intros H; inversion H. apply Z.leb_le in E. auto.
Qed.

(** ** Words, bytes and hex strings *)

Lemma beValue_radixValue (bs : list Z) : beValue bs = radixValue 256 bs.
Proof. reflexivity. Qed.

Lemma beValue_bound (bs : list Z) :
  Bytes bs -> 0 <= beValue bs < 256 ^ Z.of_nat (List.length bs).
Proof. intros H. rewrite beValue_radixValue. apply radixValue_bound; [lia|exact H]. Qed.

Lemma beBytes_length (n : nat) (v : Z) : List.length (beBytes n v) = n.
Proof. induction n; simpl; auto. Qed.

Lemma beBytes_range (n : nat) (v : Z) : Bytes (beBytes n v).
Proof.
  induction n; simpl; constructor; auto.
  apply Z.mod_pos_bound. lia.
Qed.

(** The bytes of a value depend on the value modulo [256 ^ n] only. *)
Lemma beBytes_add_high (n m : nat) (x v : Z) :
  (n <= m)%nat -> beBytes n (x * 256 ^ Z.of_nat m + v) = beBytes n v.
Proof.
  induction n as [|k IH]; intros Hle; simpl; auto.
  rewrite IH by lia. f_equal.
  replace (Z.of_nat m) with (Z.of_nat (m - k - 1) + 1 + Z.of_nat k) by lia.
  rewrite !Z.pow_add_r, Z.pow_1_r by lia.
  assert (0 < 256 ^ Z.of_nat k) by (apply Z.pow_pos_nonneg; lia).
  replace (x * (256 ^ Z.of_nat (m - k - 1) * 256 * 256 ^ Z.of_nat k) + v)
    with (v + (x * 256 ^ Z.of_nat (m - k - 1) * 256) * 256 ^ Z.of_nat k) by ring.
  rewrite Z.div_add by lia.
  now rewrite Z.mod_add by lia.
Qed.

Lemma beValue_beBytes (n : nat) (v : Z) :
  0 <= v < 256 ^ Z.of_nat n -> beValue (beBytes n v) = v.
Proof.
  intros Hv.
  assert (G : forall k x, 0 <= x -> beValue (beBytes k x) = x mod 256 ^ Z.of_nat k).
  { induction k as [|k IH]; intros x Hx.
    - simpl. now rewrite Z.mod_1_r.
    - cbn [beBytes]. rewrite beValue_radixValue, radixValue_cons.
      rewrite <- beValue_radixValue, IH, beBytes_length by lia.
      rewrite Nat2Z.inj_succ, Z.pow_succ_r by lia.
      assert (0 < 256 ^ Z.of_nat k) by (apply Z.pow_pos_nonneg; lia).
      rewrite (Z.mul_comm 256), Z.rem_mul_r by lia. lia. }
  rewrite G by lia. apply Z.mod_small. lia.
Qed.

Lemma beBytes_beValue (bs : list Z) :
  Bytes bs -> beBytes (List.length bs) (beValue bs) = bs.
Proof.
  intros H. induction H as [|b l Hb Hl IH]; auto.
  cbn [List.length beBytes].
  rewrite beValue_radixValue, radixValue_cons, <- beValue_radixValue.
  pose proof (beValue_bound l Hl) as Hlt.
  assert (0 < 256 ^ Z.of_nat (List.length l)) by (apply Z.pow_pos_nonneg; lia).
  f_equal.
  - rewrite Z.div_add_l, Z.div_small by lia.
    rewrite Z.add_0_r. apply Z.mod_small. lia.
  - rewrite beBytes_add_high by lia. exact IH.
Qed.

Lemma firstn_beBytes_app (n : nat) (v : Z) (rest : list Z) :
  firstn n (beBytes n v ++ rest) = beBytes n v.
Proof.
  rewrite firstn_app, beBytes_length, Nat.sub_diag, firstn_O, app_nil_r.
  apply firstn_all2. rewrite beBytes_length. lia.
Qed.

(** Hexadecimal digits. *)
Lemma radixDigit_hexDigit (d : Z) :
  0 <= d < 16 -> radixDigit 16 (hexDigit d) = Some d.
Proof.
  intros H.
  assert (E : d = 0 \/ d = 1 \/ d = 2 \/ d = 3 \/ d = 4 \/ d = 5 \/ d = 6
              \/ d = 7 \/ d = 8 \/ d = 9 \/ d = 10 \/ d = 11 \/ d = 12
              \/ d = 13 \/ d = 14 \/ d = 15) by lia.
  repeat (destruct E as [-> | E]; [reflexivity|]). subst; reflexivity.
Qed.

Lemma bytesOfHex_hexOfBytes (bs : list Z) :
  Bytes bs -> bytesOfHex (flat_map hexOfByte bs) = Some bs.
Proof.
  intros H. induction H as [|b l Hb Hl IH]; auto.
  cbn [flat_map hexOfByte app bytesOfHex].
  rewrite !radixDigit_hexDigit, IH.
  - f_equal. f_equal. pose proof (Z.div_mod b 16). lia.
  - apply Z.mod_pos_bound; lia.
  - split; [apply Z.div_pos; lia | apply Z.div_lt_upper_bound; lia].
Qed.

Lemma chars_hexlify (bs : list Z) :
  chars (hexlify bs) = "0"%char :: "x"%char :: flat_map hexOfByte bs.
Proof. unfold hexlify. apply chars_ofChars. Qed.

(** [getBytes] reads back what [hexlify] prints. *)
Lemma getBytes_hexlify (bs : list Z) :
  Bytes bs -> getBytes (hexlify bs) = Ok bs.
Proof.
  intros H. unfold getBytes. rewrite chars_hexlify.
  cbn [hasRadixPrefix skipn]. rewrite !Ascii.eqb_refl. cbn [andb orb].
  now rewrite bytesOfHex_hexOfBytes.
Qed.

Lemma writeValue_ok (v : Z) :
  0 <= v < 2 ^ 256 -> writeValue v = Ok (beBytes 32 v).
Proof.
  intros H. unfold writeValue.
  replace (0 <=? v) with true by (symmetry; apply Z.leb_le; lia).
  replace (v <? 2 ^ 256) with true by (symmetry; apply Z.ltb_lt; lia).
  reflexivity.
Qed.

Lemma writeValue_inv (v : Z) (w : list Z) :
  writeValue v = Ok w -> 0 <= v < 2 ^ 256 /\ w = beBytes 32 v.
Proof.
  unfold writeValue, assert.
  destruct (0 <=? v) eqn:E1; [|discriminate].
  destruct (v <? 2 ^ 256) eqn:E2; [|discriminate].
  cbn [bind]. intros H; inversion H.
  apply Z.leb_le in E1. apply Z.ltb_lt in E2. auto.
Qed.

(** ** Addresses *)

Lemma codeUnit_shift (c : ascii) (k : Z) :
  0 <= codeUnit c + k < 256 ->
  codeUnit (ascii_of_N (Z.to_N (codeUnit c + k))) = codeUnit c + k.
Proof. apply codeUnit_of. Qed.

Lemma codeUnit_toLower (c : ascii) :
  codeUnit (toLower c) =
  if (65 <=? codeUnit c) && (codeUnit c <=? 90) then codeUnit c + 32
  else codeUnit c.
Proof.
  unfold toLower. pose proof (codeUnit_range c).
  destruct ((65 <=? codeUnit c) && (codeUnit c <=? 90)) eqn:E; auto.
  apply andb_true_iff in E as [E1 E2].
  apply Z.leb_le in E1, E2. apply codeUnit_shift. lia.
Qed.

Lemma codeUnit_toUpper (c : ascii) :
  codeUnit (toUpper c) =
  if (97 <=? codeUnit c) && (codeUnit c <=? 122) then codeUnit c - 32
  else codeUnit c.
Proof.
  unfold toUpper. pose proof (codeUnit_range c).
  destruct ((97 <=? codeUnit c) && (codeUnit c <=? 122)) eqn:E; auto.
  apply andb_true_iff in E as [E1 E2].
  apply Z.leb_le in E1, E2. apply codeUnit_of. lia.
Qed.

Lemma digitValue_toLower (c : ascii) : digitValue (toLower c) = digitValue c.
Proof.
  unfold digitValue. rewrite codeUnit_toLower.
  char_ranges c; zdecide; zdecide; auto; f_equal; lia.
Qed.

Lemma digitValue_toUpper (c : ascii) : digitValue (toUpper c) = digitValue c.
Proof.
  unfold digitValue. rewrite codeUnit_toUpper.
  char_ranges c; zdecide; zdecide; auto; f_equal; lia.
Qed.

Lemma radixDigit_toLower (R : Z) (c : ascii) :
  radixDigit R (toLower c) = radixDigit R c.
Proof. unfold radixDigit. now rewrite digitValue_toLower. Qed.

Lemma radixDigit_toUpper (R : Z) (c : ascii) :
  radixDigit R (toUpper c) = radixDigit R c.
Proof. unfold radixDigit. now rewrite digitValue_toUpper. Qed.

Lemma toLower_toLower (c : ascii) : toLower (toLower c) = toLower c.
Proof.
  apply codeUnit_inj. rewrite !codeUnit_toLower.
  char_ranges c; zdecide; zdecide; lia.
Qed.

Lemma toLower_toUpper (c : ascii) : toLower (toUpper c) = toLower c.
Proof.
  apply codeUnit_inj. rewrite !codeUnit_toLower, codeUnit_toUpper.
  char_ranges c; zdecide; zdecide; lia.
Qed.

Lemma HexChar_value (c : ascii) :
  HexChar c -> radixDigit 16 c = Some (hexValue c) /\ 0 <= hexValue c < 16.
Proof.
  unfold HexChar, isHexChar, isRadixDigit, hexValue.
  destruct (radixDigit 16 c) as [d|] eqn:E; [|discriminate].
  intros _. split; auto.
  unfold radixDigit, digitValue in E. pose proof (codeUnit_range c).
  zcases; inversion E; lia.
Qed.

Lemma hexDigit_hexValue (c : ascii) :
  HexChar c -> hexDigit (hexValue c) = toLower c.
Proof.
  intros H. destruct (HexChar_value c H) as [E Hr].
  apply codeUnit_inj. rewrite codeUnit_toLower.
  unfold hexDigit. pose proof (codeUnit_range c).
  unfold radixDigit, digitValue in E.
  rewrite codeUnit_of by (zcases).
  zcases; inversion E; lia.
Qed.

Lemma HexChar_not_space (c : ascii) : HexChar c -> isWhiteSpace c = false.
Proof.
  intros H. destruct (HexChar_value c H) as [E _].
  unfold radixDigit, digitValue in E. unfold isWhiteSpace. cbv zeta.
  zcases.
Qed.

Lemma HexChar_toLower (c : ascii) : HexChar c -> HexChar (toLower c).
Proof.
  unfold HexChar, isHexChar, isRadixDigit. now rewrite radixDigit_toLower.
Qed.

Lemma HexChar_toUpper (c : ascii) : HexChar c -> HexChar (toUpper c).
Proof.
  unfold HexChar, isHexChar, isRadixDigit. now rewrite radixDigit_toUpper.
Qed.

Lemma hexValue_toLower (c : ascii) : hexValue (toLower c) = hexValue c.
Proof. unfold hexValue. now rewrite radixDigit_toLower. Qed.

Lemma hexValue_toUpper (c : ascii) : hexValue (toUpper c) = hexValue c.
Proof. unfold hexValue. now rewrite radixDigit_toUpper. Qed.

Lemma isUpperAF_toLower (c : ascii) : isUpperAF (toLower c) = false.
Proof.
  unfold isUpperAF. rewrite codeUnit_toLower. cbv zeta.
  zcases.
Qed.

Lemma HexChars_allDigits (cs : list ascii) :
  Forall HexChar cs -> allDigits 16 cs = Some (map hexValue cs).
Proof.
  intros H. induction H as [|c l Hc Hl IH]; auto.
  cbn [allDigits map]. destruct (HexChar_value c Hc) as [-> _].
  now rewrite IH.
Qed.

Lemma HexChars_values (cs : list ascii) :
  Forall HexChar cs -> Forall (fun d => 0 <= d < 16) (map hexValue cs).
Proof.
  intros H. apply Forall_map. eapply Forall_impl; [|exact H].
  intros c Hc. now destruct (HexChar_value c Hc).
Qed.

Lemma forallb_HexChars (cs : list ascii) :
  forallb isHexChar cs = true <-> Forall HexChar cs.
Proof. unfold HexChar. rewrite forallb_forall, Forall_forall. reflexivity. Qed.

(** The case the checksum gives to the digits. *)
Lemma checksumCase_length (h : list Z) (i : nat) (cs : list ascii) :
  List.length (checksumCase h i cs) = List.length cs.
Proof. revert i; induction cs; intros i; simpl; auto. Qed.

Lemma checksumCase_toLower (h : list Z) (i : nat) (cs : list ascii) :
  map toLower (checksumCase h i cs) = map toLower cs.
Proof.
  revert i; induction cs as [|c l IH]; intros i; simpl; auto.
  rewrite IH. f_equal.
  destruct (8 <=? nibbleAt h i); auto using toLower_toUpper.
Qed.

Lemma checksumCase_values (h : list Z) (i : nat) (cs : list ascii) :
  map hexValue (checksumCase h i cs) = map hexValue cs.
Proof.
  revert i; induction cs as [|c l IH]; intros i; simpl; auto.
  rewrite IH. f_equal.
  destruct (8 <=? nibbleAt h i); auto using hexValue_toUpper.
Qed.

Lemma checksumCase_HexChars (h : list Z) (i : nat) (cs : list ascii) :
  Forall HexChar cs -> Forall HexChar (checksumCase h i cs).
Proof.
  intros H. revert i; induction H as [|c l Hc Hl IH]; intros i; simpl;
    constructor; auto.
  destruct (8 <=? nibbleAt h i); auto using HexChar_toUpper.
Qed.

(** The shape of a string that matches the address pattern. *)
Lemma isPrefixedAddress_inv (a : list ascii) :
  isPrefixedAddress a = true ->
  exists cs,
    a = "0"%char :: "x"%char :: cs
    /\ List.length cs = 40%nat /\ Forall HexChar cs.
Proof.
  unfold isPrefixedAddress. intros H.
  apply andb_true_iff in H as [H H4].
  apply andb_true_iff in H as [H H3].
  apply andb_true_iff in H as [H1 H2].
  destruct a as [|c0 [|c1 cs]]; try discriminate.
  cbn [headIs tl skipn] in *.
  apply Ascii.eqb_eq in H1, H2. subst.
  exists cs. repeat split; auto.
  - now apply Nat.eqb_eq.
  - now apply forallb_HexChars.
Qed.

Lemma isPrefixedAddress_intro (cs : list ascii) :
  List.length cs = 40%nat -> Forall HexChar cs ->
  isPrefixedAddress ("0"%char :: "x"%char :: cs) = true.
Proof.
  intros Hl Hc. unfold isPrefixedAddress. cbn [headIs tl skipn].
  rewrite !Ascii.eqb_refl, Hl. cbn [andb Nat.eqb].
  apply forallb_HexChars in Hc. now rewrite Hc.
Qed.

Lemma getChecksumAddress_shape (cs : list ascii) :
  getChecksumAddress ("0"%char :: "x"%char :: cs) =
  "0"%char :: "x"%char
    :: checksumCase (Keccak.keccak256 (map codeUnit (map toLower cs))) 0
         (map toLower cs).
Proof. reflexivity. Qed.

Lemma map_toLower_idem (cs : list ascii) :
  map toLower (map toLower cs) = map toLower cs.
Proof.
  rewrite map_map. apply map_ext. intros c. apply toLower_toLower.
Qed.

(** The checksummed spelling depends on the digits, not on their case. *)
Lemma getChecksumAddress_lower (cs : list ascii) :
  getChecksumAddress ("0"%char :: "x"%char :: map toLower cs)
  = getChecksumAddress ("0"%char :: "x"%char :: cs).
Proof. rewrite !getChecksumAddress_shape, map_toLower_idem. reflexivity. Qed.

Lemma getChecksumAddress_same_digits (cs cs' : list ascii) :
  map toLower cs = map toLower cs' ->
  getChecksumAddress ("0"%char :: "x"%char :: cs)
  = getChecksumAddress ("0"%char :: "x"%char :: cs').
Proof. intros H. rewrite !getChecksumAddress_shape, H. reflexivity. Qed.

Lemma HexChars_toLower (cs : list ascii) :
  Forall HexChar cs -> Forall HexChar (map toLower cs).
Proof.
  intros H. apply Forall_map. eapply Forall_impl; [|exact H].
  apply HexChar_toLower.
Qed.

Lemma getChecksumAddress_digits (cs : list ascii) :
  Forall HexChar cs -> List.length cs = 40%nat ->
  exists cs',
    getChecksumAddress ("0"%char :: "x"%char :: cs) = "0"%char :: "x"%char :: cs'
    /\ List.length cs' = 40%nat
    /\ Forall HexChar cs'
    /\ map toLower cs' = map toLower cs
    /\ map hexValue cs' = map hexValue cs.
Proof.
  intros Hc Hl. rewrite getChecksumAddress_shape.
  eexists; split; [reflexivity|]. repeat split.
  - now rewrite checksumCase_length, length_map.
  - apply checksumCase_HexChars. now apply HexChars_toLower.
  - now rewrite checksumCase_toLower, map_toLower_idem.
  - rewrite checksumCase_values, map_map. apply map_ext.
    intros c. apply hexValue_toLower.
Qed.

Lemma listEqb_eq (a b : list ascii) : listEqb a b = true <-> a = b.
Proof.
  unfold listEqb. rewrite String.eqb_eq. split; [|congruence].
  intros H. apply (f_equal chars) in H. now rewrite !chars_ofChars in H.
Qed.

(** [getAddress] on a string that matches the address pattern: the
    checksummed spelling, unless the string mixes cases and is spelled
    otherwise. *)
Lemma getAddress_prefixed (t : string) :
  isPrefixedAddress (chars t) = true ->
  getAddress t =
    if negb (isMixedCase (chars t))
       || listEqb (getChecksumAddress (chars t)) (chars t)
    then Ok (checksummed t)
    else Throw (EthersError "INVALID_ARGUMENT" "bad address checksum").
Proof.
  intros H. unfold getAddress. cbv zeta. rewrite H. cbv iota. rewrite H.
  destruct (negb (isMixedCase (chars t))
            || listEqb (getChecksumAddress (chars t)) (chars t)); reflexivity.
Qed.

Lemma getAddress_inv (t a : string) :
  isPrefixedAddress (chars t) = true ->
  getAddress t = Ok a -> a = checksummed t.
Proof.
  intros H. rewrite getAddress_prefixed by auto.
  destruct (negb (isMixedCase (chars t))
            || listEqb (getChecksumAddress (chars t)) (chars t));
    intros E; inversion E; reflexivity.
Qed.

Lemma isMixedCase_lower (cs : list ascii) :
  isMixedCase ("0"%char :: "x"%char :: map toLower cs) = false.
Proof.
  unfold isMixedCase. apply andb_false_iff. left.
  cbn [existsb]. change (isUpperAF "0") with false.
  change (isUpperAF "x") with false. cbn [orb].
  induction cs as [|c l IH]; auto.
  cbn [map existsb]. now rewrite isUpperAF_toLower, IH.
Qed.

(** [getAddress] on lower-case digits, as [toBeHex] prints them. *)
Lemma getAddress_lower (cs : list ascii) :
  List.length cs = 40%nat -> Forall HexChar cs ->
  getAddress (ofChars ("0"%char :: "x"%char :: map toLower cs))
  = Ok (ofChars (getChecksumAddress ("0"%char :: "x"%char :: cs))).
Proof.
  intros Hl Hc.
  rewrite getAddress_prefixed; rewrite chars_ofChars.
  - rewrite isMixedCase_lower. cbn [negb orb].
    unfold checksummed. now rewrite chars_ofChars, getChecksumAddress_lower.
  - apply isPrefixedAddress_intro; [now rewrite length_map|].
    now apply HexChars_toLower.
Qed.

(** The number [getBigInt] reads off a prefixed run of hex digits. *)
Lemma getBigInt_address (cs : list ascii) :
  cs <> [] -> Forall HexChar cs ->
  getBigInt (ofChars ("0"%char :: "x"%char :: cs))
  = Ok (radixValue 16 (map hexValue cs)).
Proof.
  intros Hne Hc. unfold getBigInt. rewrite chars_ofChars.
  cbn [headIs tl]. change (Ascii.eqb "0" "-") with false. cbn [andb].
  unfold StringToBigInt. rewrite chars_ofChars.
  rewrite trim_no_space.
  - cbn [hasRadixPrefix skipn]. rewrite !Ascii.eqb_refl. cbn [andb orb].
    unfold wholeNumeral. rewrite HexChars_allDigits by auto.
    destruct cs; [congruence | reflexivity].
  - repeat constructor.
    eapply Forall_impl; [|exact Hc]. apply HexChar_not_space.
Qed.

(** Twenty bytes from forty digits. *)
Lemma radixValue_pairUp (n : nat) (ds : list Z) :
  List.length ds = (2 * n)%nat ->
  radixValue 16 ds = radixValue 256 (pairUp ds)
  /\ List.length (pairUp ds) = n.
Proof.
  revert ds. induction n as [|n IH]; intros ds Hl.
  - destruct ds; [auto | discriminate].
  - destruct ds as [|d0 [|d1 r]]; cbn [List.length] in Hl; try lia.
    destruct (IH r ltac:(lia)) as [Hv Hn].
    cbn [pairUp List.length]. split; [|lia].
    rewrite !radixValue_cons, Hv, Hn. cbn [List.length].
    replace (Z.of_nat (S (List.length r))) with (1 + 2 * Z.of_nat n) by lia.
    replace (Z.of_nat (List.length r)) with (2 * Z.of_nat n) by lia.
    rewrite Z.pow_add_r, Z.pow_mul_r by lia.
    change (16 ^ 2) with 256. change (16 ^ 1) with 16. ring.
Qed.

Lemma pairUp_Bytes (n : nat) (ds : list Z) :
  List.length ds = (2 * n)%nat ->
  Forall (fun d => 0 <= d < 16) ds -> Bytes (pairUp ds).
Proof.
  revert ds. induction n as [|n IH]; intros ds Hl Hd.
  - destruct ds; [constructor | discriminate].
  - destruct ds as [|d0 [|d1 r]]; cbn [List.length] in Hl; try lia.
    inversion Hd as [|? ? H0 Hd']; subst. inversion Hd' as [|? ? H1 Hr]; subst.
    cbn [pairUp]. constructor; [lia|].
    apply IH; auto. lia.
Qed.

Lemma hexOfBytes_pairUp (n : nat) (ds : list Z) :
  List.length ds = (2 * n)%nat ->
  Forall (fun d => 0 <= d < 16) ds ->
  flat_map hexOfByte (pairUp ds) = map hexDigit ds.
Proof.
  revert ds. induction n as [|n IH]; intros ds Hl Hd.
  - destruct ds; [reflexivity | discriminate].
  - destruct ds as [|d0 [|d1 r]]; cbn [List.length] in Hl; try lia.
    inversion Hd as [|? ? H0 Hd']; subst. inversion Hd' as [|? ? H1 Hr]; subst.
    cbn [pairUp flat_map hexOfByte app map].
    rewrite IH by (auto; lia).
    replace ((d0 * 16 + d1) / 16) with d0
      by (symmetry; rewrite Z.div_add_l by lia; rewrite Z.div_small; lia).
    replace ((d0 * 16 + d1) mod 16) with d1
      by (symmetry; rewrite Z.add_comm, Z.mod_add by lia; apply Z.mod_small; lia).
    reflexivity.
Qed.

Lemma hexOfBytes_address (ds : list Z) :
  List.length ds = 40%nat -> Forall (fun d => 0 <= d < 16) ds ->
  flat_map hexOfByte (beBytes 20 (radixValue 16 ds)) = map hexDigit ds.
Proof.
  intros Hl Hd.
  destruct (radixValue_pairUp 20 ds Hl) as [Hv Hn].
  rewrite Hv, <- beValue_radixValue, <- Hn.
  rewrite beBytes_beValue by (apply (pairUp_Bytes 20); auto).
  apply (hexOfBytes_pairUp 20); auto.
Qed.

Lemma address_number_bound (ds : list Z) :
  List.length ds = 40%nat -> Forall (fun d => 0 <= d < 16) ds ->
  0 <= radixValue 16 ds < 2 ^ 160.
Proof.
  intros Hl Hd. pose proof (radixValue_bound 16 ds ltac:(lia) Hd) as H.
  rewrite Hl in H. exact H.
Qed.

(** ** The coders: what [encode] writes *)

Lemma assert_ok (b : bool) (code msg : string) (u : unit) :
  assert b code msg = Ok u -> b = true.
Proof. unfold assert. destruct b; [auto | discriminate]. Qed.

Lemma below_2_256 (v : Z) : v < 2 ^ 60 -> v < 2 ^ 256.
Proof.
  intros H. assert (2 ^ 60 < 2 ^ 256) by (apply Z.pow_lt_mono_r; lia). lia.
Qed.

Lemma jsArray_bound {A : Type} (l : list A) :
  jsArray l -> Z.of_nat (List.length l) < 4294967296.
Proof. unfold jsArray. change (2 ^ 32) with 4294967296. auto. Qed.

Lemma word_length (v : Z) : List.length (word v) = 32%nat.
Proof. apply beBytes_length. Qed.

Lemma word_Bytes (v : Z) : Bytes (word v).
Proof. apply beBytes_range. Qed.

Lemma beValue_word (v : Z) : 0 <= v < 2 ^ 256 -> beValue (word v) = v.
Proof. intros H. apply beValue_beBytes. exact H. Qed.

Lemma NumberCoder_encode_inv (size : Z) (s : string) (w : list Z) :
  NumberCoder_encode size s = Ok w ->
  exists v,
    getBigInt s = Ok v /\ 0 <= v <= Z.ones (size * 8)
    /\ 0 <= v < 2 ^ 256 /\ w = word v.
Proof.
  unfold NumberCoder_encode. intros H.
  bind_inv H. bind_inv H. apply assert_ok in E0.
  apply andb_true_iff in E0 as [H1 H2]. apply Z.leb_le in H1, H2.
  apply writeValue_inv in H as [Hb ->]. exists a. auto.
Qed.

Lemma NumberCoder_encode_ok (size : Z) (s : string) (v : Z) :
  getBigInt s = Ok v -> 0 <= v <= Z.ones (size * 8) -> v < 2 ^ 256 ->
  NumberCoder_encode size s = Ok (word v).
Proof.
  intros Hg Hv Hb. unfold NumberCoder_encode. rewrite Hg. cbn [bind].
  replace ((0 <=? v) && (v <=? Z.ones (size * 8))) with true
    by (symmetry; apply andb_true_iff; split; apply Z.leb_le; lia).
  cbn [assert bind]. apply writeValue_ok. lia.
Qed.

(** The checksummed spelling keeps the number of an address. *)
Lemma checksummed_number (t : string) :
  wellFormedAddress t = true ->
  wellFormedAddress (checksummed t) = true
  /\ getBigInt (checksummed t) = Ok (addressNumber t)
  /\ 0 <= addressNumber t < 2 ^ 160.
Proof.
  unfold wellFormedAddress, checksummed, addressNumber. intros H.
  destruct (isPrefixedAddress_inv _ H) as (cs & E & Hl & Hc).
  destruct (getChecksumAddress_digits cs Hc Hl) as (cs' & E' & Hl' & Hc' & _ & Hv).
  rewrite E, E', chars_ofChars. cbn [skipn]. repeat split.
  - now apply isPrefixedAddress_intro.
  - rewrite getBigInt_address, Hv; auto.
    destruct cs'; [discriminate | congruence].
  - apply address_number_bound; [now rewrite length_map|].
    now apply HexChars_values.
  - apply address_number_bound; [now rewrite length_map|].
    now apply HexChars_values.
Qed.

(** [AddressCoder_encode] writes the number of the address whenever
    [getAddress] accepts its spelling. *)
Lemma AddressCoder_encode_eq (t : string) :
  wellFormedAddress t = true ->
  AddressCoder_encode t =
    let* _ := getAddress t in Ok (word (addressNumber t)).
Proof.
  intros H. unfold AddressCoder_encode.
  destruct (getAddress t) as [a|e] eqn:E; cbn [bind]; auto.
  apply getAddress_inv in E; auto. subst a.
  destruct (checksummed_number t H) as (_ & -> & Hb). cbn [bind].
  apply writeValue_ok.
  assert (2 ^ 160 < 2 ^ 256) by (apply Z.pow_lt_mono_r; lia). lia.
Qed.

Lemma mapM_AddressCoder_encode (ts : list string) :
  forallb wellFormedAddress ts = true ->
  mapM AddressCoder_encode ts =
    let* _ := mapM getAddress ts in Ok (map word (map addressNumber ts)).
Proof.
  induction ts as [|t l IH]; intros H; auto.
  cbn [forallb] in H. apply andb_true_iff in H as [Ht Hl].
  cbn [mapM map]. rewrite AddressCoder_encode_eq, IH by auto.
  destruct (getAddress t); cbn [bind]; auto.
  destruct (mapM getAddress l); cbn [bind]; auto.
Qed.

Lemma ArrayCoder_encode_eq (ts : list string) :
  forallb wellFormedAddress ts = true -> jsArray ts ->
  ArrayCoder_encode ts =
    let* _ := mapM getAddress ts in Ok (abiArray (map addressNumber ts)).
Proof.
  intros H Hj. unfold ArrayCoder_encode, abiArray.
  rewrite writeValue_ok.
  - cbn [bind]. rewrite mapM_AddressCoder_encode by auto.
    destruct (mapM getAddress ts); cbn [bind]; auto.
    now rewrite length_map.
  - apply jsArray_bound in Hj.
    split; [lia | apply below_2_256; change (2 ^ 60) with 1152921504606846976; lia].
Qed.

Lemma abiArray_length (xs : list Z) :
  Z.of_nat (List.length (abiArray xs)) = 32 + 32 * Z.of_nat (List.length xs).
Proof.
  unfold abiArray. rewrite length_app, word_length.
  assert (G : List.length (List.concat (map word xs)) = (32 * List.length xs)%nat).
  { induction xs as [|x l IH]; auto.
    cbn [map List.concat List.length]. rewrite length_app, word_length, IH. lia. }
  rewrite G. lia.
Qed.

Lemma abiArray_Bytes (xs : list Z) : Bytes (abiArray xs).
Proof.
  unfold abiArray, Bytes. apply Forall_app. split; [apply word_Bytes|].
  induction xs as [|x l IH]; cbn [map List.concat]; [constructor|].
  apply Forall_app. split; [apply word_Bytes | exact IH].
Qed.

Lemma abiLayout_Bytes (d a : Z) (ts rs : list Z) : Bytes (abiLayout d a ts rs).
Proof.
  unfold abiLayout, abiTuple, Bytes.
  rewrite !Forall_app.
  repeat split; first [apply word_Bytes | apply abiArray_Bytes].
Qed.

(** The tuple coder, given what its four coders wrote. *)
Lemma TupleCoder_encode_eq (tv : TupleValue) (d a : Z) :
  getBigInt (tv_erc20Decimals tv) = Ok d -> 0 <= d <= 255 ->
  getBigInt (tv_maxAmount tv) = Ok a -> 0 <= a < 2 ^ 256 ->
  forallb wellFormedAddress (tv_allowedTokens tv) = true ->
  forallb wellFormedAddress (tv_allowedRecipients tv) = true ->
  jsArray (tv_allowedTokens tv) -> jsArray (tv_allowedRecipients tv) ->
  TupleCoder_encode tv =
    let* _ := mapM getAddress (tv_allowedTokens tv) in
    let* _ := mapM getAddress (tv_allowedRecipients tv) in
    Ok (abiTuple d a (map addressNumber (tv_allowedTokens tv))
                     (map addressNumber (tv_allowedRecipients tv))).
Proof.
  intros Hd Hdr Ha Har Ht Hr Jt Jr. unfold TupleCoder_encode.
  rewrite (NumberCoder_encode_ok 1 _ d) by (auto; cbn; lia).
  rewrite (NumberCoder_encode_ok 32 _ a)
    by (auto; change (Z.ones (32 * 8)) with (2 ^ 256 - 1); lia).
  cbn [bind]. rewrite !ArrayCoder_encode_eq by auto.
  destruct (mapM getAddress (tv_allowedTokens tv)); cbn [bind]; auto.
  destruct (mapM getAddress (tv_allowedRecipients tv)); cbn [bind]; auto.
  unfold WordSize. rewrite abiArray_length, length_map.
  apply jsArray_bound in Jt.
  rewrite !writeValue_ok
    by (split; [lia | apply below_2_256; change (2 ^ 60) with 1152921504606846976; lia]).
  cbn [bind]. unfold abiTuple, word. rewrite length_map.
  replace (4 * 32 + (32 + 32 * Z.of_nat (List.length (tv_allowedTokens tv))))
    with (128 + 32 + 32 * Z.of_nat (List.length (tv_allowedTokens tv))) by lia.
  reflexivity.
Qed.

(** ** The coders: what [decode] reads *)

Lemma skipn_next (dat : list Z) (off : nat) (w rest : list Z) :
  skipn off dat = w ++ rest -> List.length w = 32%nat ->
  skipn (off + 32) dat = rest.
Proof.
  intros H Hl. rewrite Nat.add_comm, <- skipn_skipn, H.
  rewrite skipn_app, Hl, Nat.sub_diag, skipn_O.
  rewrite skipn_all2 by lia. reflexivity.
Qed.

Lemma readWord_at (dat : list Z) (off : nat) (w rest : list Z) :
  skipn off dat = w ++ rest -> List.length w = 32%nat ->
  readWord (mkReader dat off) = Ok (w, mkReader dat (off + 32)).
Proof.
  intros H Hl. unfold readWord, dataLength, WordSize. cbn [data offset].
  assert (Hlen : (off + 32 <= List.length dat)%nat).
  { pose proof (f_equal (@List.length Z) H) as E.
    rewrite length_skipn, length_app, Hl in E. lia. }
  replace (Z.of_nat off + 32 <=? Z.of_nat (List.length dat)) with true
    by (symmetry; apply Z.leb_le; lia).
  cbn [assert bind]. rewrite H.
  rewrite firstn_app, Hl, Nat.sub_diag, firstn_O, app_nil_r.
  rewrite firstn_all2 by lia. reflexivity.
Qed.

Lemma readValue_word (dat : list Z) (off : nat) (v : Z) (rest : list Z) :
  skipn off dat = word v ++ rest -> 0 <= v < 2 ^ 256 ->
  readValue (mkReader dat off) = Ok (v, mkReader dat (off + 32)).
Proof.
  intros H Hv. unfold readValue.
  rewrite (readWord_at dat off (word v) rest H (word_length v)).
  cbn [bind]. now rewrite beValue_word.
Qed.

Lemma readIndex_word (dat : list Z) (off : nat) (v : Z) (rest : list Z) :
  skipn off dat = word v ++ rest -> 0 <= v <= maxValue ->
  readIndex (mkReader dat off) = Ok (v, mkReader dat (off + 32)).
Proof.
  intros H Hv. unfold readIndex.
  rewrite (readValue_word dat off v rest H)
    by (split; [lia | apply below_2_256; unfold maxValue in Hv;
                      change (2 ^ 60) with 1152921504606846976; lia]).
  cbn [bind]. unfold getNumberOfBigInt.
  replace ((- maxValue <=? v) && (v <=? maxValue)) with true; [reflexivity|].
  symmetry. apply andb_true_iff. unfold maxValue in *.
  split; apply Z.leb_le; lia.
Qed.

Lemma NumberCoder_decode_word (size : Z) (dat : list Z) (off : nat) (v : Z)
    (rest : list Z) :
  skipn off dat = word v ++ rest ->
  0 <= v <= Z.ones (size * 8) -> 0 < size <= 32 ->
  NumberCoder_decode size (mkReader dat off) = Ok (v, mkReader dat (off + 32)).
Proof.
  intros H Hv Hs. unfold NumberCoder_decode.
  assert (Hp : 0 < 2 ^ (size * 8)) by (apply Z.pow_pos_nonneg; lia).
  assert (Hlt : v < 2 ^ (size * 8)) by (rewrite Z.ones_equiv in Hv; lia).
  assert (Hle : 2 ^ (size * 8) <= 2 ^ 256) by (apply Z.pow_le_mono_r; lia).
  rewrite (readValue_word dat off v rest H) by lia.
  cbn [bind]. rewrite Z.land_ones by lia.
  now rewrite Z.mod_small by lia.
Qed.

(** A word that holds the number of an address decodes to its
    checksummed spelling. *)
Lemma toBeHex20_address (t : string) :
  wellFormedAddress t = true ->
  exists cs,
    chars t = "0"%char :: "x"%char :: cs
    /\ List.length cs = 40%nat /\ Forall HexChar cs
    /\ toBeHex20 (addressNumber t)
       = Ok (ofChars ("0"%char :: "x"%char :: map toLower cs)).
Proof.
  intros H. unfold wellFormedAddress in H.
  destruct (isPrefixedAddress_inv _ H) as (cs & E & Hl & Hc).
  exists cs. repeat split; auto.
  unfold toBeHex20, addressNumber. rewrite E. cbn [skipn].
  pose proof (HexChars_values cs Hc) as Hd.
  pose proof (address_number_bound (map hexValue cs)
                ltac:(now rewrite length_map) Hd) as Hb.
  replace (radixValue 16 (map hexValue cs) <? 2 ^ 160) with true
    by (symmetry; apply Z.ltb_lt; lia).
  cbn [assert bind]. unfold hexlify.
  rewrite hexOfBytes_address by (auto; now rewrite length_map).
  rewrite map_map. do 4 f_equal.
  apply map_ext_in. intros c Hin. apply hexDigit_hexValue.
  rewrite Forall_forall in Hc. auto.
Qed.

Lemma AddressCoder_decode_word (t : string) (dat : list Z) (off : nat)
    (rest : list Z) :
  wellFormedAddress t = true ->
  skipn off dat = word (addressNumber t) ++ rest ->
  AddressCoder_decode (mkReader dat off)
  = Ok (checksummed t, mkReader dat (off + 32)).
Proof.
  intros H Hs. unfold AddressCoder_decode.
  destruct (checksummed_number t H) as (_ & _ & Hb).
  assert (2 ^ 160 < 2 ^ 256) by (apply Z.pow_lt_mono_r; lia).
  rewrite (readValue_word dat off _ rest Hs) by lia.
  cbn [bind].
  destruct (toBeHex20_address t H) as (cs & E & Hl & Hc & ->).
  cbn [bind]. rewrite getAddress_lower by auto.
  cbn [bind]. unfold checksummed. now rewrite E.
Qed.

Lemma unpackAddresses_words (ts : list string) (dat : list Z) (off : nat)
    (rest : list Z) :
  forallb wellFormedAddress ts = true ->
  skipn off dat = List.concat (map word (map addressNumber ts)) ++ rest ->
  unpackAddresses (List.length ts) (mkReader dat off) = Ok (map checksummed ts).
Proof.
  revert off. induction ts as [|t l IH]; intros off H Hs; auto.
  cbn [forallb] in H. apply andb_true_iff in H as [Ht Hl].
  cbn [map List.concat] in Hs. rewrite <- app_assoc in Hs.
  cbn [List.length unpackAddresses map].
  rewrite (AddressCoder_decode_word t dat off _ Ht Hs). cbn [bind].
  rewrite IH; auto.
  eapply skipn_next; [exact Hs | apply word_length].
Qed.

Lemma ArrayCoder_decode_array (ts : list string) (rest : list Z) :
  forallb wellFormedAddress ts = true -> jsArray ts ->
  ArrayCoder_decode (mkReader (abiArray (map addressNumber ts) ++ rest) 0)
  = Ok (map checksummed ts).
Proof.
  intros H Hj. apply jsArray_bound in Hj.
  unfold ArrayCoder_decode, abiArray.
  rewrite length_map, <- app_assoc.
  rewrite (readIndex_word _ 0 (Z.of_nat (List.length ts))
             (List.concat (map word (map addressNumber ts)) ++ rest))
    by (auto; unfold maxValue; lia).
  cbn [bind]. unfold dataLength. cbn [data].
  pose proof (abiArray_length (map addressNumber ts)) as Hlen.
  unfold abiArray in Hlen. rewrite length_map in Hlen.
  replace (Z.of_nat (List.length ts) * WordSize <=?
           Z.of_nat (List.length
             (word (Z.of_nat (List.length ts))
              ++ List.concat (map word (map addressNumber ts)) ++ rest)))
    with true.
  - cbn [assert bind]. rewrite Nat2Z.id.
    apply (unpackAddresses_words ts _ _ rest); auto.
  - symmetry. apply Z.leb_le. unfold WordSize.
    rewrite app_assoc, length_app. lia.
Qed.

Lemma skipn_word (v : Z) (n : nat) (l : list Z) :
  skipn (32 + n) (word v ++ l) = skipn n l.
Proof.
  rewrite Nat.add_comm, <- skipn_skipn. reflexivity.
Qed.

(** The head of the standard tuple layout, word by word. *)
Lemma tuple_layout_32 (d a : Z) (ts rs : list Z) :
  skipn 32 (abiTuple d a ts rs)
  = word a ++ word 128
    ++ word (128 + 32 + 32 * Z.of_nat (List.length ts))
    ++ abiArray ts ++ abiArray rs.
Proof.
  unfold abiTuple. change 32%nat with (32 + 0)%nat. now rewrite !skipn_word.
Qed.

Lemma tuple_layout_64 (d a : Z) (ts rs : list Z) :
  skipn 64 (abiTuple d a ts rs)
  = word 128 ++ word (128 + 32 + 32 * Z.of_nat (List.length ts))
    ++ abiArray ts ++ abiArray rs.
Proof.
  unfold abiTuple. change 64%nat with (32 + (32 + 0))%nat.
  now rewrite !skipn_word.
Qed.

Lemma tuple_layout_96 (d a : Z) (ts rs : list Z) :
  skipn 96 (abiTuple d a ts rs)
  = word (128 + 32 + 32 * Z.of_nat (List.length ts))
    ++ abiArray ts ++ abiArray rs.
Proof.
  unfold abiTuple. change 96%nat with (32 + (32 + (32 + 0)))%nat.
  now rewrite !skipn_word.
Qed.

Lemma tuple_layout_128 (d a : Z) (ts rs : list Z) :
  skipn 128 (abiTuple d a ts rs) = abiArray ts ++ abiArray rs.
Proof.
  unfold abiTuple. change 128%nat with (32 + (32 + (32 + (32 + 0))))%nat.
  now rewrite !skipn_word.
Qed.

Section TupleLayout.

Variables (d a : Z) (ts rs : list string).
Hypothesis Hd : 0 <= d <= 255.
Hypothesis Ha : 0 <= a < 2 ^ 256.
Hypothesis Hts : forallb wellFormedAddress ts = true.
Hypothesis Hrs : forallb wellFormedAddress rs = true.
Hypothesis Jts : jsArray ts.
Hypothesis Jrs : jsArray rs.

Let nts := map addressNumber ts.
Let nrs := map addressNumber rs.
Let T := abiTuple d a nts nrs.

Let secondOffset := 128 + 32 + 32 * Z.of_nat (List.length nts).

Lemma tuple_at_0 :
  skipn 0 T = word d ++ word a ++ word 128 ++ word secondOffset
              ++ abiArray nts ++ abiArray nrs.
Proof. reflexivity. Qed.

Lemma tuple_at_32 :
  skipn 32 T = word a ++ word 128 ++ word secondOffset
               ++ abiArray nts ++ abiArray nrs.
Proof. apply tuple_layout_32. Qed.

Lemma tuple_at_64 :
  skipn 64 T = word 128 ++ word secondOffset ++ abiArray nts ++ abiArray nrs.
Proof. apply tuple_layout_64. Qed.

Lemma tuple_at_96 :
  skipn 96 T = word secondOffset ++ abiArray nts ++ abiArray nrs.
Proof. apply tuple_layout_96. Qed.

Lemma tuple_at_128 : skipn 128 T = abiArray nts ++ abiArray nrs.
Proof. apply tuple_layout_128. Qed.

Lemma tuple_at_second_array :
  skipn (Z.to_nat secondOffset) T = abiArray nrs ++ [].
Proof.
  replace (Z.to_nat secondOffset)
    with (List.length (abiArray nts) + 128)%nat
    by (pose proof (abiArray_length nts); unfold secondOffset; lia).
  rewrite <- skipn_skipn, tuple_at_128.
  rewrite skipn_app, Nat.sub_diag, skipn_O, skipn_all2 by lia.
  now rewrite app_nil_r.
Qed.

(** The tuple coder reads back the standard layout of the tuple. *)
Lemma TupleCoder_decode_tuple :
  TupleCoder_decode (mkReader T 0)
  = Ok (mkDecoded d a (map checksummed ts) (map checksummed rs)).
Proof.
  pose proof (jsArray_bound _ Jts) as Bt.
  unfold TupleCoder_decode.
  rewrite (NumberCoder_decode_word 1 T 0 d _ tuple_at_0)
    by (change (Z.ones (1 * 8)) with 255; lia).
  cbn [bind Nat.add].
  rewrite (NumberCoder_decode_word 32 T 32 a _ tuple_at_32)
    by (change (Z.ones (32 * 8)) with (2 ^ 256 - 1); lia).
  cbn [bind Nat.add].
  rewrite (readIndex_word T 64 128 _ tuple_at_64) by (unfold maxValue; lia).
  cbn [bind Nat.add]. unfold subReader at 1 2. cbn [data offset].
  change (skipn (0 + Z.to_nat 0) T) with T.
  change (0 + Z.to_nat 128)%nat with 128%nat.
  rewrite tuple_at_128.
  unfold nts at 1. rewrite ArrayCoder_decode_array by auto.
  cbn [bind Nat.add].
  rewrite (readIndex_word T 96 _ _ tuple_at_96)
    by (unfold secondOffset, nts, maxValue; rewrite length_map; lia).
  cbn [bind Nat.add]. unfold subReader. cbn [data offset].
  change (skipn (0 + Z.to_nat 0) T) with T.
  rewrite Nat.add_0_l, tuple_at_second_array.
  unfold nrs at 1. rewrite ArrayCoder_decode_array by auto.
  reflexivity.
Qed.

(** The whole decoder reads back the standard layout of the argument
    list. *)
Lemma AbiCoder_decode_layout :
  AbiCoder_decode (hexlify (abiLayout d a nts nrs))
  = Ok (mkDecoded d a (map checksummed ts) (map checksummed rs)).
Proof.
  unfold AbiCoder_decode.
  rewrite getBytes_hexlify by apply abiLayout_Bytes.
  cbn [bind Nat.add]. unfold abiLayout. fold T.
  rewrite (readIndex_word (word 32 ++ T) 0 32 T)
    by (try reflexivity; unfold maxValue; lia).
  cbn [bind Nat.add]. unfold subReader. cbn [data offset].
  change (skipn (0 + Z.to_nat 0) (word 32 ++ T)) with (word 32 ++ T).
  change (0 + Z.to_nat 32)%nat with (0 + 32)%nat.
  rewrite (skipn_next (word 32 ++ T) 0 (word 32) T eq_refl (word_length 32)).
  apply TupleCoder_decode_tuple.
Qed.

End TupleLayout.

(** ** [encodePolicy] and [decodePolicy] *)

Lemma mapM_getAddress_inv (ts l : list string) :
  forallb wellFormedAddress ts = true ->
  mapM getAddress ts = Ok l -> l = map checksummed ts.
Proof.
  revert l. induction ts as [|t r IH]; intros l H E.
  - inversion E; reflexivity.
  - cbn [forallb] in H. apply andb_true_iff in H as [Ht Hr].
    cbn [mapM] in E. bind_inv E. bind_inv E. inversion E; subst.
    apply getAddress_inv in E0; auto. rewrite (IH _ Hr eq_refl).
    now subst.
Qed.

Lemma forallb_wellFormed_checksummed (ts : list string) :
  forallb wellFormedAddress ts = true ->
  forallb wellFormedAddress (map checksummed ts) = true.
Proof.
  induction ts as [|t r IH]; intros H; auto.
  cbn [forallb] in H. apply andb_true_iff in H as [Ht Hr].
  cbn [map forallb]. rewrite IH by auto.
  destruct (checksummed_number t Ht) as (-> & _). reflexivity.
Qed.

(** What [encodePolicy] returns when the numeric fields are accepted by
    the coders: the standard layout, unless [getAddress] refuses an
    address. *)
Lemma encodePolicy_eq (p : ERC20TransferPolicyType) (d a : Z) :
  validate p = Ok p ->
  getBigInt (erc20Decimals p) = Ok d -> 0 <= d <= 255 ->
  parseUnits (maxAmount p) (parseInt (erc20Decimals p) 0) = Ok a ->
  0 <= a < 2 ^ 256 ->
  jsArray (allowedTokens p) -> jsArray (allowedRecipients p) ->
  encodePolicy p =
    let* _ := mapM getAddress (allowedTokens p) in
    let* _ := mapM getAddress (allowedRecipients p) in
    Ok (hexlify (abiLayout d a (map addressNumber (allowedTokens p))
                               (map addressNumber (allowedRecipients p)))).
Proof.
  intros Hv Hd Hdr Ha Har Jt Jr.
  destruct (validate_ok_checks p p Hv) as (_ & _ & _ & Wt & Wr).
  unfold encodePolicy. unfold validate in Hv. rewrite Hv, Ha. cbn [bind].
  unfold AbiCoder_encode.
  rewrite (TupleCoder_encode_eq _ d a); cbn [tv_erc20Decimals tv_maxAmount
    tv_allowedTokens tv_allowedRecipients]; auto using getBigInt_toString.
  destruct (mapM getAddress (allowedTokens p)); cbn [bind]; auto.
  destruct (mapM getAddress (allowedRecipients p)); cbn [bind]; auto.
Qed.

Lemma encodePolicy_inv (p : ERC20TransferPolicyType) (s : string) :
  jsArray (allowedTokens p) -> jsArray (allowedRecipients p) ->
  encodePolicy p = Ok s ->
  exists d a,
    validate p = Ok p
    /\ getBigInt (erc20Decimals p) = Ok d /\ 0 <= d <= 255
    /\ parseUnits (maxAmount p) (parseInt (erc20Decimals p) 0) = Ok a
    /\ 0 <= a < 2 ^ 256
    /\ mapM getAddress (allowedTokens p) = Ok (map checksummed (allowedTokens p))
    /\ mapM getAddress (allowedRecipients p)
       = Ok (map checksummed (allowedRecipients p))
    /\ s = hexlify (abiLayout d a (map addressNumber (allowedTokens p))
                                  (map addressNumber (allowedRecipients p))).
Proof.
  intros Jt Jr H. pose proof H as H0. unfold encodePolicy in H.
  bind_inv H. fold (validate p) in E.
  pose proof (validate_ok_same _ _ E) as ->.
  destruct (validate_ok_checks p p E) as (_ & _ & _ & Wt & Wr).
  bind_inv H. rename a into v.
  unfold AbiCoder_encode in H. bind_inv H.
  unfold TupleCoder_encode in E1.
  cbn [tv_erc20Decimals tv_maxAmount tv_allowedTokens tv_allowedRecipients] in E1.
  bind_inv E1. apply NumberCoder_encode_inv in E2 as (d & Hd & Hdr & _ & _).
  bind_inv E1. apply NumberCoder_encode_inv in E2 as (v' & Hv' & _ & Hvr & _).
  rewrite getBigInt_toString in Hv'. inversion Hv'; subst v'.
  change (Z.ones (1 * 8)) with 255 in Hdr.
  exists d, v.
  rewrite (encodePolicy_eq p d v) in H0 by auto.
  bind_inv H0. bind_inv H0. inversion H0; subst.
  apply mapM_getAddress_inv in E2, E3; auto. subst.
  repeat split; auto; lia.
Qed.

Lemma encodePolicy_ok (p : ERC20TransferPolicyType) (d a : Z) :
  validate p = Ok p ->
  getBigInt (erc20Decimals p) = Ok d -> 0 <= d <= 255 ->
  parseUnits (maxAmount p) (parseInt (erc20Decimals p) 0) = Ok a ->
  0 <= a < 2 ^ 256 ->
  jsArray (allowedTokens p) -> jsArray (allowedRecipients p) ->
  Forall (fun t => getAddress t = Ok t) (allowedTokens p) ->
  Forall (fun t => getAddress t = Ok t) (allowedRecipients p) ->
  encodePolicy p =
    Ok (hexlify (abiLayout d a (map addressNumber (allowedTokens p))
                               (map addressNumber (allowedRecipients p)))).
Proof.
  intros Hv Hd Hdr Ha Har Jt Jr Ct Cr.
  rewrite (encodePolicy_eq p d a) by auto.
  assert (G : forall ts, Forall (fun t => getAddress t = Ok t) ts ->
                         mapM getAddress ts = Ok ts).
  { intros ts Hs. induction Hs as [|t r Ht Hr IH]; auto.
    cbn [mapM]. now rewrite Ht, IH. }
  now rewrite !G by auto.
Qed.

(** [decodePolicy] on the standard layout. *)
Lemma decodePolicy_layout (d a : Z) (ts rs : list string) :
  0 <= d <= 255 -> 0 <= a < 2 ^ 256 ->
  forallb wellFormedAddress ts = true ->
  forallb wellFormedAddress rs = true ->
  jsArray ts -> jsArray rs ->
  decodePolicy (hexlify (abiLayout d a (map addressNumber ts)
                                       (map addressNumber rs)))
  = Ok (mkPolicy "ERC20Transfer" "1.0.0"
                 (BigInt_toString d) (BigInt_toString a)
                 (map checksummed ts) (map checksummed rs)).
Proof.
  intros Hd Ha Wt Wr Jt Jr. unfold decodePolicy.
  rewrite AbiCoder_decode_layout by auto.
  cbn [bind d_erc20Decimals d_maxAmount d_allowedTokens d_allowedRecipients].
  apply validate_checks_ok; cbn [type erc20Decimals maxAmount allowedTokens
                                 allowedRecipients];
    auto using forallb_wellFormed_checksummed.
  - apply decimalsRefinement_toString; lia.
  - apply amountRefinement_toString; lia.
Qed.

(** The round trip, in the terms of the libraries: whenever
    [encodePolicy] returns, [decodePolicy] reads back the numbers it
    wrote, printed in decimal, and the checksummed spelling of each
    address. *)
Lemma decode_encode (p : ERC20TransferPolicyType) (s : string) :
  jsArray (allowedTokens p) -> jsArray (allowedRecipients p) ->
  encodePolicy p = Ok s ->
  exists d a,
    getBigInt (erc20Decimals p) = Ok d /\ 0 <= d <= 255
    /\ parseUnits (maxAmount p) (parseInt (erc20Decimals p) 0) = Ok a
    /\ 0 <= a < 2 ^ 256
    /\ decodePolicy s
       = Ok (mkPolicy "ERC20Transfer" "1.0.0"
                      (BigInt_toString d) (BigInt_toString a)
                      (map checksummed (allowedTokens p))
                      (map checksummed (allowedRecipients p))).
Proof.
  intros Jt Jr H.
  destruct (encodePolicy_inv p s Jt Jr H)
    as (d & a & Hv & Hd & Hdr & Ha & Har & _ & _ & ->).
  destruct (validate_ok_checks p p Hv) as (_ & _ & _ & Wt & Wr).
  exists d, a. repeat split; auto; try lia.
  now apply decodePolicy_layout.
Qed.

Lemma abiLayout_head (d a : Z) (ts rs : list Z) :
  0 <= d < 2 ^ 256 -> 0 <= a < 2 ^ 256 ->
  let bs := abiLayout d a ts rs in
  beValue (firstn 32 bs) = 32
  /\ beValue (firstn 32 (skipn 32 bs)) = d
  /\ beValue (firstn 32 (skipn 64 bs)) = a.
Proof.
  intros Hd Ha bs. unfold bs, abiLayout, abiTuple.
  change 64%nat with (32 + (32 + 0))%nat.
  change (skipn 32) with (@skipn Z (32 + 0)).
  rewrite !skipn_word. cbn [skipn].
  unfold word. rewrite !firstn_beBytes_app.
  rewrite !beValue_beBytes; auto.
  split; [lia | apply below_2_256; reflexivity].
Qed.

(** ** What [decodePolicy] needs of its input *)

Lemma readWord_inv (r r' : Reader) (w : list Z) :
  readWord r = Ok (w, r') ->
  (offset r + 32 <= List.length (data r))%nat
  /\ r' = mkReader (data r) (offset r + 32).
Proof.
  unfold readWord, dataLength, WordSize. intros H.
  bind_inv H. apply assert_ok in E. apply Z.leb_le in E.
  inversion H. split; [lia | reflexivity].
Qed.

Lemma readValue_inv (r r' : Reader) (v : Z) :
  readValue r = Ok (v, r') ->
  (offset r + 32 <= List.length (data r))%nat
  /\ r' = mkReader (data r) (offset r + 32).
Proof.
  unfold readValue. intros H. bind_inv H. destruct a as [w r1].
  inversion H; subst. eapply readWord_inv; eauto.
Qed.

Lemma readIndex_inv (r r' : Reader) (v : Z) :
  readIndex r = Ok (v, r') ->
  (offset r + 32 <= List.length (data r))%nat
  /\ r' = mkReader (data r) (offset r + 32).
Proof.
  unfold readIndex. intros H. bind_inv H. destruct a as [w r1].
  bind_inv H. inversion H; subst. eapply readValue_inv; eauto.
Qed.

Lemma NumberCoder_decode_inv (size : Z) (r r' : Reader) (v : Z) :
  NumberCoder_decode size r = Ok (v, r') ->
  (offset r + 32 <= List.length (data r))%nat
  /\ r' = mkReader (data r) (offset r + 32).
Proof.
  unfold NumberCoder_decode. intros H. bind_inv H. destruct a as [w r1].
  inversion H; subst. eapply readValue_inv; eauto.
Qed.

(** The tuple coder reads the four words of the head before anything
    else. *)
Lemma TupleCoder_decode_head (r : Reader) (dec : Decoded) :
  TupleCoder_decode r = Ok dec ->
  (offset r + 128 <= List.length (data r))%nat.
Proof.
  unfold TupleCoder_decode. intros H.
  bind_inv H. destruct a as [v1 r1].
  apply NumberCoder_decode_inv in E as [_ ->].
  bind_inv H. destruct a as [v2 r2].
  apply NumberCoder_decode_inv in E as [_ ->].
  bind_inv H. destruct a as [v3 r3].
  apply readIndex_inv in E as [_ ->].
  bind_inv H. bind_inv H. destruct a0 as [v4 r4].
  apply readIndex_inv in E0 as [E0 _]. cbn [data offset] in E0. lia.
Qed.

Lemma AbiCoder_decode_head (s : string) (dec : Decoded) :
  AbiCoder_decode s = Ok dec ->
  exists bs, getBytes s = Ok bs /\ (128 <= List.length bs)%nat.
Proof.
  unfold AbiCoder_decode. intros H.
  bind_inv H. rename a into bs. exists bs. split; auto.
  bind_inv H. destruct a as [o r1].
  apply TupleCoder_decode_head in H.
  unfold subReader in H. cbn [data offset] in H.
  rewrite !length_skipn in H. lia.
Qed.

Lemma bytesOfHex_length (n : nat) (s : list ascii) (bs : list Z) :
  (List.length s <= n)%nat ->
  bytesOfHex s = Some bs -> List.length s = (2 * List.length bs)%nat.
Proof.
  revert s bs. induction n as [|n IH]; intros s bs Hn H.
  - destruct s; [inversion H; reflexivity | cbn [List.length] in Hn; lia].
  - destruct s as [|h [|l r]]; cbn [bytesOfHex] in H.
    + inversion H; reflexivity.
    + discriminate.
    + destruct (radixDigit 16 h); [|discriminate].
      destruct (radixDigit 16 l); [|discriminate].
      destruct (bytesOfHex r) as [bs'|] eqn:E; [|discriminate].
      inversion H; subst. cbn [List.length] in *.
      rewrite (IH r bs') by (auto; lia). lia.
Qed.

Lemma length_chars (s : string) : List.length (chars s) = String.length s.
Proof. induction s; simpl; auto. Qed.

Lemma getBytes_length (s : string) (bs : list Z) :
  getBytes s = Ok bs -> String.length s = (2 + 2 * List.length bs)%nat.
Proof.
  unfold getBytes. rewrite <- length_chars.
  destruct (chars s) as [|c0 [|c1 r]]; try discriminate.
  destruct (hasRadixPrefix "x" "X" (c0 :: c1 :: r)); [|discriminate].
  cbn [skipn]. destruct (bytesOfHex r) as [bs'|] eqn:E; [|discriminate].
  intros H; inversion H; subst. cbn [List.length].
  rewrite (bytesOfHex_length _ r bs (Nat.le_refl _) E). lia.
Qed.

(** A string [decodePolicy] accepts spells at least 128 bytes. *)
Lemma decodePolicy_head (s : string) (r : ERC20TransferPolicyType) :
  decodePolicy s = Ok r -> (258 <= String.length s)%nat.
Proof.
  unfold decodePolicy. intros H. bind_inv H.
  apply AbiCoder_decode_head in E as (bs & Hb & Hl).
  apply getBytes_length in Hb. lia.
Qed.

Lemma abiLayout_length (d a : Z) (ts rs : list Z) :
  (224 <= List.length (abiLayout d a ts rs))%nat.
Proof.
  unfold abiLayout, abiTuple, abiArray.
  rewrite !length_app, !word_length. lia.
Qed.

(** ** Truncated wire forms *)

Lemma readValue_value (r r' : Reader) (v : Z) :
  readValue r = Ok (v, r') ->
  v = beValue (firstn 32 (skipn (offset r) (data r))).
Proof.
  unfold readValue, readWord. intros H.
  bind_inv H. destruct a as [w r1]. inversion H; subst.
  bind_inv E. inversion E; subst. reflexivity.
Qed.

Lemma Bytes_firstn (n : nat) (bs : list Z) : Bytes bs -> Bytes (firstn n bs).
Proof.
  intros H. revert n. induction H as [|b l Hb Hl IH]; intros [|n];
    cbn [firstn]; constructor; auto. apply IH.
Qed.

Lemma firstn_skipn_firstn {A : Type} (n k m : nat) (l : list A) :
  (k + m <= n)%nat ->
  firstn m (skipn k (firstn n l)) = firstn m (skipn k l).
Proof.
  intros H. rewrite skipn_firstn_comm, firstn_firstn.
  f_equal. lia.
Qed.

Lemma unpackAddresses_length (k : nat) (r : Reader) (l : list string) :
  (offset r <= List.length (data r))%nat ->
  unpackAddresses k r = Ok l ->
  (offset r + 32 * k <= List.length (data r))%nat.
Proof.
  revert r l. induction k as [|k IH]; intros r l Ho H; [lia|].
  cbn [unpackAddresses] in H.
  bind_as H [x r1]. bind_as H rest.
  unfold AddressCoder_decode in E.
  bind_as E [v r2]. bind_as E h. bind_as E c. inversion E; subst.
  apply readValue_inv in E1 as [Hlen ->].
  apply IH in E0; cbn [data offset] in *; lia.
Qed.

Lemma subReader_base (dat : list Z) (o : Z) :
  subReader (subReader (mkReader dat 0) 0) o
  = mkReader (skipn (Z.to_nat o) dat) 0.
Proof. reflexivity. Qed.

Section Truncation.

Variables (d a : Z) (ts rs : list Z) (n : nat).
Hypothesis Hd : 0 <= d <= 255.
Hypothesis Ha : 0 <= a < 2 ^ 256.
Hypothesis Jts : Z.of_nat (List.length ts) < 2 ^ 32.
Hypothesis Jrs : Z.of_nat (List.length rs) < 2 ^ 32.

Let L := abiLayout d a ts rs.
Let D := firstn n L.

Hypothesis Hn : (n < List.length L)%nat.

Lemma truncated_length : List.length D = n.
Proof. unfold D. rewrite length_firstn. lia. Qed.

(** A word read from the truncated bytes lies within them and is the
    word of the whole layout at the same place. *)
Lemma readValue_truncated (j off : nat) (x v : Z) (r' : Reader) (rest : list Z) :
  readValue (mkReader (skipn j D) off) = Ok (x, r') ->
  skipn (j + off) L = word v ++ rest -> 0 <= v < 2 ^ 256 ->
  x = v /\ (j + off + 32 <= n)%nat /\ r' = mkReader (skipn j D) (off + 32).
Proof.
  intros H HL Hv.
  pose proof (readValue_value _ _ _ H) as Hx.
  apply readValue_inv in H as [Hlen ->]. cbn [data offset] in *.
  rewrite length_skipn, truncated_length in Hlen.
  assert (Hb : (j + off + 32 <= n)%nat) by lia.
  repeat split; auto.
  rewrite Hx, skipn_skipn. unfold D.
  rewrite firstn_skipn_firstn by lia.
  rewrite (Nat.add_comm off j), HL.
  unfold word. rewrite firstn_beBytes_app. now apply beValue_beBytes.
Qed.

Lemma readIndex_truncated (j off : nat) (x v : Z) (r' : Reader) (rest : list Z) :
  readIndex (mkReader (skipn j D) off) = Ok (x, r') ->
  skipn (j + off) L = word v ++ rest -> 0 <= v < 2 ^ 256 ->
  x = v /\ (j + off + 32 <= n)%nat /\ r' = mkReader (skipn j D) (off + 32).
Proof.
  unfold readIndex. intros H HL Hv.
  bind_as H [y r1]. bind_as H y'. inversion H; subst.
  unfold getNumberOfBigInt in E0. bind_as E0 u. inversion E0; subst.
  eapply readValue_truncated; eauto.
Qed.

Lemma layout_at (k : nat) :
  skipn (32 + k) L = skipn k (abiTuple d a ts rs).
Proof. unfold L, abiLayout. apply skipn_word. Qed.

Lemma ArrayCoder_decode_truncated (j : nat) (xs : list Z) (rest : list Z)
    (l : list string) :
  ArrayCoder_decode (mkReader (skipn j D) 0) = Ok l ->
  skipn j L = abiArray xs ++ rest ->
  Z.of_nat (List.length xs) < 2 ^ 32 ->
  (j + List.length (abiArray xs) <= n)%nat.
Proof.
  unfold ArrayCoder_decode. intros H HL Hx.
  bind_as H [count r1]. bind_as H u.
  unfold abiArray in HL. rewrite <- app_assoc in HL.
  assert (Hc : 0 <= Z.of_nat (List.length xs) < 2 ^ 256).
  { split; [lia|]. apply below_2_256.
    change (2 ^ 32) with 4294967296 in Hx.
    change (2 ^ 60) with 1152921504606846976. lia. }
  rewrite <- (Nat.add_0_r j) in HL.
  destruct (readIndex_truncated j 0 count _ r1 _ E HL Hc) as (-> & Hr & ->).
  rewrite Nat2Z.id in H.
  apply unpackAddresses_length in H; cbn [data offset] in *;
    rewrite length_skipn, truncated_length in *;
    pose proof (abiArray_length xs); lia.
Qed.

(** Decoding a proper prefix of a standard layout reads past its end. *)
Lemma AbiCoder_decode_truncated (dec : Decoded) :
  AbiCoder_decode (hexlify D) = Ok dec -> False.
Proof.
  unfold AbiCoder_decode. intros H.
  assert (HB : Bytes D)
    by (unfold D; apply Bytes_firstn, abiLayout_Bytes).
  rewrite (getBytes_hexlify D HB) in H. cbn [bind] in H. cbv zeta in H.
  bind_as H [o r1].
  assert (H32 : 0 <= 32 < 2 ^ 256) by (split; [lia | apply below_2_256; reflexivity]).
  destruct (readIndex_truncated 0 0 o 32 r1 (abiTuple d a ts rs) E eq_refl H32)
    as (-> & _ & _).
  rewrite subReader_base in H. change (Z.to_nat 32) with 32%nat in H.
  unfold TupleCoder_decode in H. cbv zeta in H.
  assert (Hd256 : 0 <= d < 2 ^ 256)
    by (split; [lia | apply below_2_256; change (2 ^ 60) with 1152921504606846976; lia]).
  pose proof (abiArray_length ts) as Lts.
  pose proof (abiArray_length rs) as Lrs.
  change (2 ^ 32) with 4294967296 in Jts, Jrs.
  set (o2 := 128 + 32 + 32 * Z.of_nat (List.length ts)) in *.
  assert (Ho2 : 0 <= o2 < 2 ^ 256)
    by (unfold o2; split; [lia | apply below_2_256;
        change (2 ^ 60) with 1152921504606846976; lia]).
  assert (H128 : 0 <= 128 < 2 ^ 256) by (split; [lia | apply below_2_256; reflexivity]).
  (* the two values *)
  bind_as H [v1 r2].
  unfold NumberCoder_decode in E0. bind_as E0 [x1 r2'].
  inversion E0; subst. clear E0.
  destruct (readValue_truncated 32 0 x1 d r2 _ E1 (layout_at 0) Hd256)
    as (_ & _ & ->).
  bind_as H [v2 r3].
  unfold NumberCoder_decode in E0. bind_as E0 [x2 r3'].
  inversion E0; subst. clear E0.
  destruct (readValue_truncated 32 32 x2 a r3 _ E2
              (eq_trans (layout_at 32) (tuple_layout_32 d a ts rs)) Ha)
    as (_ & _ & ->).
  (* the first offset and its array *)
  bind_as H [o1 r4].
  destruct (readIndex_truncated 32 64 o1 128 r4 _ E0
              (eq_trans (layout_at 64) (tuple_layout_64 d a ts rs)) H128)
    as (-> & _ & ->).
  rewrite subReader_base in H.
  bind_as H tokens.
  (* the second offset and its array *)
  bind_as H [o2' r5].
  destruct (readIndex_truncated 32 96 o2' o2 r5 _ E4
              (eq_trans (layout_at 96) (tuple_layout_96 d a ts rs)) Ho2)
    as (-> & _ & _).
  rewrite subReader_base in H.
  bind_as H recipients.
  rewrite skipn_skipn in E5.
  assert (HL2 : skipn (Z.to_nat o2 + 32) L = abiArray rs ++ []).
  { rewrite Nat.add_comm, layout_at.
    replace (Z.to_nat o2) with (List.length (abiArray ts) + 128)%nat
      by (unfold o2; lia).
    rewrite <- skipn_skipn, tuple_layout_128.
    rewrite skipn_app, Nat.sub_diag, skipn_O, skipn_all2 by lia.
    now rewrite app_nil_r. }
  pose proof (ArrayCoder_decode_truncated _ rs [] _ E5 HL2 ltac:(lia)) as Hend.
  assert (HLlen : List.length L
                  = (160 + List.length (abiArray ts) + List.length (abiArray rs))%nat).
  { unfold L, abiLayout, abiTuple. rewrite !length_app, !word_length. lia. }
  unfold o2 in Hend. lia.
Qed.

End Truncation.

(** ** The validation claims *)

(** C7.  [validate] accepts a record only if [parseInt] reads its
    [erc20Decimals] as an integer between 0 and 255; it rejects every
    record whose [erc20Decimals] is "256" and every record whose
    [erc20Decimals] is "-1". *)
Theorem validate_decimals_in_range :
  (forall p q : ERC20TransferPolicyType,
      validate p = Ok q ->
      exists n, JS.parseInt (erc20Decimals p) 10 = JS.Int n /\ 0 <= n <= 255)
  /\ (forall p : ERC20TransferPolicyType,
         erc20Decimals p = "256" \/ erc20Decimals p = "-1" ->
         exists e, validate p = Throw e).
Proof.
  split.
  - intros p q H. apply validate_ok_checks in H as (_ & H & _).
    now apply decimalsRefinement_spec.
  - intros p H.
    assert (Hd : decimalsRefinement (erc20Decimals p) = false)
      by (destruct H as [-> | ->]; reflexivity).
    destruct (validate p) as [q|e] eqn:E; eauto.
    apply validate_ok_checks in E as (_ & E & _). congruence.
Qed.

Lemma validate_decimals_in_range_witness :
  (exists n, JS.parseInt (erc20Decimals examplePolicy) 10 = JS.Int n /\ 0 <= n <= 255)
  /\ (exists e, validate (withNumerals "256" "1") = Throw e).
Proof.
  split.
  - apply (proj1 validate_decimals_in_range examplePolicy examplePolicy).
    reflexivity.
  - apply (proj2 validate_decimals_in_range (withNumerals "256" "1")).
    left; reflexivity.
Defined.

(** C8, at the input where the code departs from it: the amount "-0.5"
    denotes a negative number, [validate] accepts the record that
    carries it, and [encodePolicy] then throws on that record. *)
Theorem validate_accepts_negative_fraction :
  denotesNegative "-0.5" = true
  /\ validate (withNumerals "18" "-0.5") = Ok (withNumerals "18" "-0.5")
  /\ encodePolicy (withNumerals "18" "-0.5")
     = Throw (EthersError "INVALID_ARGUMENT" "value out-of-bounds").
Proof. repeat split; vm_compute; reflexivity. Qed.

(** What does hold of the amounts: a record is rejected when [parseInt]
    reads its [maxAmount] as a negative integer or as NaN. *)
Theorem validate_rejects_negative_parse (p : ERC20TransferPolicyType) :
  (JS.parseInt (maxAmount p) 10 = JS.NaN
   \/ exists n, JS.parseInt (maxAmount p) 10 = JS.Int n /\ n < 0) ->
  exists e, validate p = Throw e.
Proof.
  intros H.
  assert (Ha : amountRefinement (maxAmount p) = false).
  { unfold amountRefinement. destruct H as [-> | (n & -> & Hn)]; simpl; auto.
    apply Z.leb_gt; lia. }
  destruct (validate p) as [q|e] eqn:E; eauto.
  apply validate_ok_checks in E as (_ & _ & E & _). congruence.
Qed.

Lemma validate_rejects_negative_parse_witness :
  exists e, validate (withNumerals "18" "-5") = Throw e.
Proof.
  apply validate_rejects_negative_parse. right. exists (-5).
  split; [reflexivity | lia].
Defined.

(** C9.  A record that fails validation makes [validate] throw a
    ZodError whose first issue names the first offending field, and no
    record is returned; a record with an ill-formed entry in
    [allowedTokens] fails this way, with an issue that names
    [allowedTokens]. *)
Theorem validate_names_first_offending_field :
  (forall p : ERC20TransferPolicyType,
      match firstOffendingField p with
      | None => validate p = Ok p
      | Some f =>
          exists i rest,
            validate p = Throw (ZodError (i :: rest)) /\ issueField i = Some f
      end)
  /\ (forall p : ERC20TransferPolicyType,
         forallb wellFormedAddress (allowedTokens p) = false ->
         exists issues,
           validate p = Throw (ZodError issues)
           /\ Exists (fun i => issueField i = Some "allowedTokens") issues).
Proof.
  split; intros p.
  - unfold validate, Zod.parse, firstOffendingField.
    rewrite policySchema_issues.
    destruct (String.eqb (type p) "ERC20Transfer"); simpl; [|eauto].
    destruct (decimalsRefinement (erc20Decimals p)); simpl; [|eauto].
    destruct (amountRefinement (maxAmount p)); simpl; [|eauto].
    destruct (forallb wellFormedAddress (allowedTokens p)) eqn:Ht; simpl.
    + rewrite (arrayFrom_address_nil _ _ _ Ht); simpl.
      destruct (forallb wellFormedAddress (allowedRecipients p)) eqn:Hr; simpl.
      * now rewrite (arrayFrom_address_nil _ _ _ Hr).
      * pose proof (arrayFrom_address_names "allowedRecipients" 0 (allowedRecipients p)) as Hn.
        destruct (arrayFrom_address_cons "allowedRecipients" 0 _ Hr) as (x & rest & E).
        rewrite E in *. inversion Hn; subst. eauto.
    + pose proof (arrayFrom_address_names "allowedTokens" 0 (allowedTokens p)) as Hn.
      destruct (arrayFrom_address_cons "allowedTokens" 0 _ Ht) as (x & rest & E).
      rewrite E in *. inversion Hn; subst. simpl. eauto.
  - intros Ht. unfold validate, Zod.parse. rewrite policySchema_issues.
    pose proof (arrayFrom_address_names "allowedTokens" 0 (allowedTokens p)) as Hn.
    destruct (arrayFrom_address_cons "allowedTokens" 0 _ Ht) as (x & rest & E).
    rewrite E in *. inversion Hn; subst.
    match goal with
    | |- context [(?a ++ ?b ++ ?c ++ (x :: rest) ++ ?d)] =>
        assert (Hin : Exists (fun i => issueField i = Some "allowedTokens")
                        (a ++ b ++ c ++ (x :: rest) ++ d))
          by (rewrite !Exists_app; right; right; right; left; constructor; auto);
        destruct (a ++ b ++ c ++ (x :: rest) ++ d) eqn:El;
          [inversion Hin | eauto]
    end.
Qed.

Lemma validate_names_first_offending_field_witness :
  exists issues,
    validate (mkPolicy "ERC20Transfer" "1.0.0" "18" "1"
                ["0xAAAAAAAAAAAAAAAAAAAAAAAAAAAAAAAAAAAAAAAA"; "0x12";
                 "AAAAAAAAAAAAAAAAAAAAAAAAAAAAAAAAAAAAAAAAAA"] [])
      = Throw (ZodError issues)
    /\ Exists (fun i => issueField i = Some "allowedTokens") issues.
Proof.
  apply (proj2 validate_names_first_offending_field). reflexivity.
Defined.

(** C10.  [validate] accepts records whose [erc20Decimals] or
    [maxAmount] is no decimal integer numeral, such as "12abc" and
    "1.5": the two refinements look at the strings only through
    [parseInt], which stops at the first code unit that is no digit. *)
Theorem validate_accepts_non_numerals :
  isDecimalNumeral "12abc" = false
  /\ isDecimalNumeral "1.5" = false
  /\ validate (withNumerals "12abc" "1") = Ok (withNumerals "12abc" "1")
  /\ validate (withNumerals "18" "1.5") = Ok (withNumerals "18" "1.5")
  /\ JS.parseInt "12abc" 10 = JS.Int 12
  /\ JS.parseInt "1.5" 10 = JS.Int 1
  /\ (forall s t : string,
         JS.parseInt s 10 = JS.parseInt t 10 ->
         decimalsRefinement s = decimalsRefinement t
         /\ amountRefinement s = amountRefinement t).
Proof.
  repeat split; try reflexivity;
    unfold decimalsRefinement, amountRefinement; intros; rewrite H; reflexivity.
Qed.

(** ** The codec claims *)

Lemma checksummed_fixed (ts : list string) :
  forallb wellFormedAddress ts = true ->
  Forall (fun t => getAddress t = Ok t) ts ->
  map checksummed ts = ts.
Proof.
  intros W H. induction H as [|t r Ht Hr IH]; auto.
  cbn [forallb] in W. apply andb_true_iff in W as [Wt Wr].
  cbn [map]. rewrite IH by auto. f_equal.
  symmetry. now apply getAddress_inv.
Qed.

Lemma lowerCase_checksummed (ts : list string) :
  forallb wellFormedAddress ts = true ->
  map lowerCase (map checksummed ts) = map lowerCase ts.
Proof.
  induction ts as [|t r IH]; intros W; auto.
  cbn [forallb] in W. apply andb_true_iff in W as [Wt Wr].
  cbn [map]. rewrite IH by auto. f_equal.
  unfold lowerCase, checksummed, wellFormedAddress in *.
  destruct (isPrefixedAddress_inv _ Wt) as (cs & E & Hl & Hc).
  destruct (getChecksumAddress_digits cs Hc Hl) as (cs' & E' & _ & _ & Hlow & _).
  rewrite chars_ofChars, E, E'. cbn [map]. now rewrite Hlow.
Qed.

(** C1, refuted as stated, on four accepted records.  With 78
    decimals and the amount "1" the scaled amount 10^78 does not fit a
    uint256, and with 81 decimals [parseUnits] refuses the scale:
    [encodePolicy] throws and there is no record to compare.  With the
    decimals "007" the round trip returns "7".  On the record of the
    specification's example the addresses come back in their
    checksummed spelling, not as they were given. *)
Lemma roundtrip_not_identity_on_valid_records :
  (validate (withNumerals "78" "1") = Ok (withNumerals "78" "1")
   /\ encodePolicy (withNumerals "78" "1")
      = Throw (EthersError "INVALID_ARGUMENT" "value out-of-bounds"))
  /\ (validate (withNumerals "81" "1") = Ok (withNumerals "81" "1")
      /\ encodePolicy (withNumerals "81" "1")
         = Throw (EthersError "INVALID_ARGUMENT"
                    "invalid FixedNumber decimals (too large)"))
  /\ (validate (withNumerals "007" "1") = Ok (withNumerals "007" "1")
      /\ exists s r,
           encodePolicy (withNumerals "007" "1") = Ok s
           /\ decodePolicy s = Ok r
           /\ erc20Decimals r = "7")
  /\ validate examplePolicy = Ok examplePolicy
  /\ exists s r,
       encodePolicy examplePolicy = Ok s
       /\ decodePolicy s = Ok r
       /\ allowedTokens r = ["0xaAaAaAaaAaAaAaaAaAAAAAAAAaaaAaAaAaaAaaAa"]
       /\ allowedTokens r <> allowedTokens examplePolicy.
Proof.
  split; [split; vm_compute; reflexivity|].
  split; [split; vm_compute; reflexivity|].
  split.
  { split; [vm_compute; reflexivity|].
    eexists. eexists.
    split; [vm_compute; reflexivity|].
    split; [vm_compute; reflexivity|].
    reflexivity. }
  split; [vm_compute; reflexivity|].
  eexists. eexists.
  split; [vm_compute; reflexivity|].
  split; [vm_compute; reflexivity|].
  split; [reflexivity|].
  cbn. discriminate.
Qed.

(** C1, amended.  For an accepted record whose two numeric fields are
    decimal numerals as [BigInt] prints them, with at most 80 decimals
    and a scaled amount below 2^256, and whose addresses are spelled as
    [getAddress] returns them: [encodePolicy] returns a string, and
    [decodePolicy] reads from it a record with the same
    [erc20Decimals], [allowedTokens] and [allowedRecipients], with
    [maxAmount] multiplied by 10^decimals, and with the canonical
    [type] and [version].  (The two lists are JavaScript arrays,
    [jsArray].) *)
Theorem roundtrip_canonical (p : ERC20TransferPolicyType) (d a : Z) :
  validate p = Ok p ->
  erc20Decimals p = BigInt_toString d -> 0 <= d <= 80 ->
  maxAmount p = BigInt_toString a -> 0 <= a -> a * 10 ^ d < 2 ^ 256 ->
  Forall (fun t => getAddress t = Ok t) (allowedTokens p) ->
  Forall (fun t => getAddress t = Ok t) (allowedRecipients p) ->
  jsArray (allowedTokens p) -> jsArray (allowedRecipients p) ->
  exists s,
    encodePolicy p = Ok s
    /\ decodePolicy s
       = Ok (mkPolicy "ERC20Transfer" "1.0.0"
                      (erc20Decimals p) (BigInt_toString (a * 10 ^ d))
                      (allowedTokens p) (allowedRecipients p)).
Proof.
  intros Hv Hd Hdr Ha Har Hb Ct Cr Jt Jr.
  destruct (validate_ok_checks p p Hv) as (_ & _ & _ & Wt & Wr).
  assert (Hs : 0 <= a * 10 ^ d)
    by (apply Z.mul_nonneg_nonneg; [lia | apply Z.pow_nonneg; lia]).
  assert (H511 : 2 ^ 256 < 2 ^ 511) by (apply Z.pow_lt_mono_r; lia).
  eexists. split.
  - apply (encodePolicy_ok p d (a * 10 ^ d)); auto; try lia.
    + rewrite Hd. apply getBigInt_toString.
    + rewrite Hd, Ha, parseInt_toString by (auto; lia).
      apply parseUnits_toString; lia.
  - rewrite decodePolicy_layout by (auto; lia).
    now rewrite Hd, !checksummed_fixed by auto.
Qed.

Lemma roundtrip_canonical_witness :
  exists s,
    encodePolicy checksummedPolicy = Ok s
    /\ decodePolicy s
       = Ok (mkPolicy "ERC20Transfer" "1.0.0"
                      (erc20Decimals checksummedPolicy)
                      (BigInt_toString (1 * 10 ^ 18))
                      (allowedTokens checksummedPolicy)
                      (allowedRecipients checksummedPolicy)).
Proof.
  apply (roundtrip_canonical checksummedPolicy 18 1).
  - vm_compute; reflexivity.
  - reflexivity.
  - lia.
  - reflexivity.
  - lia.
  - reflexivity.
  - constructor; [vm_compute; reflexivity | constructor].
  - constructor; [vm_compute; reflexivity | constructor].
  - reflexivity.
  - reflexivity.
Defined.




(** C3, refuted as stated: in the bytes [encodePolicy] returns for the
    record of the example, byte 0 is not the decimals 18 and bytes 1
    to 32 are not the scaled amount 10^18; the decimals are the last
    byte of the second word and the amount is the third word. *)
Lemma wire_head_is_not_packed :
  exists s bs,
    encodePolicy examplePolicy = Ok s
    /\ getBytes s = Ok bs
    /\ nth 0 bs 0 <> 18
    /\ beValue (firstn 32 (skipn 1 bs)) <> 10 ^ 18
    /\ nth 63 bs 0 = 18
    /\ beValue (firstn 32 (skipn 64 bs)) = 10 ^ 18.
Proof.
  eexists. eexists.
  split; [vm_compute; reflexivity|].
  split; [vm_compute; reflexivity|].
  repeat split; vm_compute; congruence.
Qed.

(** C3, amended.  The bytes [encodePolicy] returns are the standard ABI
    encoding of the one-tuple argument list: the offset word 32, then
    the tuple, whose head is the decimals as a 32-byte big-endian word
    (bytes 32 to 63), the scaled amount as a word (bytes 64 to 95) and
    the offsets of the two arrays, followed by the two arrays, each
    its length and one word per address.  (The two lists are
    JavaScript arrays, [jsArray].) *)
Theorem wire_is_standard_abi (p : ERC20TransferPolicyType) (s : string) :
  jsArray (allowedTokens p) -> jsArray (allowedRecipients p) ->
  encodePolicy p = Ok s ->
  exists d a bs,
    getBigInt (erc20Decimals p) = Ok d /\ 0 <= d <= 255
    /\ parseUnits (maxAmount p) (parseInt (erc20Decimals p) 0) = Ok a
    /\ 0 <= a < 2 ^ 256
    /\ bs = abiLayout d a (map addressNumber (allowedTokens p))
                          (map addressNumber (allowedRecipients p))
    /\ s = hexlify bs
    /\ getBytes s = Ok bs
    /\ beValue (firstn 32 bs) = 32
    /\ beValue (firstn 32 (skipn 32 bs)) = d
    /\ beValue (firstn 32 (skipn 64 bs)) = a.
Proof.
  intros Jt Jr H.
  destruct (encodePolicy_inv p s Jt Jr H)
    as (d & a & _ & Hd & Hdr & Ha & Har & _ & _ & ->).
  exists d, a. eexists.
  split; [exact Hd|]. split; [exact Hdr|].
  split; [exact Ha|]. split; [exact Har|].
  split; [reflexivity|]. split; [reflexivity|].
  split; [apply getBytes_hexlify, abiLayout_Bytes|].
  apply abiLayout_head; [|exact Har].
  assert (2 ^ 8 < 2 ^ 256) by (apply Z.pow_lt_mono_r; lia).
  change (2 ^ 8) with 256 in *. lia.
Qed.

Lemma wire_is_standard_abi_witness :
  let s := hexlify (abiLayout 18 (10 ^ 18)
                      (map addressNumber (allowedTokens examplePolicy))
                      (map addressNumber (allowedRecipients examplePolicy))) in
  exists d a bs,
    getBigInt (erc20Decimals examplePolicy) = Ok d /\ 0 <= d <= 255
    /\ parseUnits (maxAmount examplePolicy)
                  (parseInt (erc20Decimals examplePolicy) 0) = Ok a
    /\ 0 <= a < 2 ^ 256
    /\ bs = abiLayout d a (map addressNumber (allowedTokens examplePolicy))
                          (map addressNumber (allowedRecipients examplePolicy))
    /\ s = hexlify bs
    /\ getBytes s = Ok bs
    /\ beValue (firstn 32 bs) = 32
    /\ beValue (firstn 32 (skipn 32 bs)) = d
    /\ beValue (firstn 32 (skipn 64 bs)) = a.
Proof.
  intros s. apply (wire_is_standard_abi examplePolicy s);
    [reflexivity | reflexivity | vm_compute; reflexivity].
Defined.









(** ** Further properties *)

(** [encodePolicy] validates first: on a record [validate] rejects it
    throws the error of [validate]. *)
Theorem encodePolicy_validates_first (p : ERC20TransferPolicyType) (e : Error) :
  validate p = Throw e -> encodePolicy p = Throw e.
Proof.
  unfold validate, encodePolicy. intros H. now rewrite H.
Qed.

Lemma encodePolicy_validates_first_witness :
  encodePolicy (withNumerals "256" "1")
  = Throw (ZodError
             [mkIssue [Key "erc20Decimals"]
                "Invalid decimals format. Must be a non-negative integer not exceeding 255."]).
Proof.
  apply encodePolicy_validates_first. reflexivity.
Defined.
